(** * csv_to_json: a shallow embedding of [generate_json]

    The development follows [src/csv_to_json.py].  Python dictionaries are
    insertion-ordered, so they are association lists here; exceptions are an
    explicit error result; the interpreter's built-ins ([str.lower],
    [str.strip], [float], [int], [repr], [json.dumps]) are the fields of a
    type class, so that every general statement holds for whatever these
    built-ins compute, and a reference instance is given for the scenarios. *)

From Stdlib Require Import List String Ascii ZArith QArith Bool Lia.
From Stdlib Require Import Permutation Sorted.
From Stdlib Require Import DecimalString Floats.SpecFloat.
Import ListNotations.

Set Implicit Arguments.
Open Scope list_scope.
Open Scope string_scope.

(** ** Exceptions and results *)

(** The exception classes the program can raise.  [NotModelled] marks the
    part of [str.format] (conversions, format specifications, attribute and
    index access) that the embedding leaves out. *)
Inductive exn : Type :=
| AttributeError
| KeyError (name : string)
| ValueError
| IndexError
| NotModelled.

Inductive result (A : Type) : Type :=
| Ok (a : A)
| Raise (e : exn).

Arguments Ok {A} a.
Arguments Raise {A} e.

Definition bind {A B : Type} (r : result A) (k : A -> result B) : result B :=
  match r with
  | Ok a => k a
  | Raise e => Raise e
  end.

Notation "x <- r ;; k" := (bind r (fun x => k))
  (at level 61, r at next level, right associativity).

Definition of_option {A : Type} (o : option A) (e : exn) : result A :=
  match o with
  | Some a => Ok a
  | None => Raise e
  end.

(** [d.get(k, dflt)] on an optional lookup result. *)
Definition get_or {A : Type} (o : option A) (dflt : A) : A :=
  match o with
  | Some a => a
  | None => dflt
  end.

(** A loop whose body may raise: the first exception ends it. *)
Fixpoint fold_result {A B : Type} (f : A -> B -> result A) (l : list B) (a : A)
  : result A :=
  match l with
  | [] => Ok a
  | b :: l' => a' <- f a b ;; fold_result f l' a'
  end.

Fixpoint map_result {A B : Type} (f : A -> result B) (l : list A)
  : result (list B) :=
  match l with
  | [] => Ok []
  | a :: l' => b <- f a ;; bs <- map_result f l' ;; Ok (b :: bs)
  end.

(** ** Dictionaries keyed by strings *)

Module Dict.
Section Dict.
Context {V : Type}.

Definition t := list (string * V).

Fixpoint get (d : t) (k : string) : option V :=
  match d with
  | [] => None
  | (k', v) :: d' => if String.eqb k' k then Some v else get d' k
  end.

(** [d[k] = v]: an existing key keeps its position, a new one goes last. *)
Fixpoint set (d : t) (k : string) (v : V) : t :=
  match d with
  | [] => [(k, v)]
  | (k', v') :: d' =>
      if String.eqb k' k then (k', v) :: d' else (k', v') :: set d' k v
  end.

Definition mem (d : t) (k : string) : bool :=
  match get d k with
  | Some _ => true
  | None => false
  end.

(** Truth value of a dictionary: [not d] holds of the empty one only. *)
Definition is_empty (d : t) : bool :=
  match d with
  | [] => true
  | _ :: _ => false
  end.

Definition keys (d : t) : list string := map fst d.
End Dict.
Arguments t V : clear implicits.
End Dict.

(** ** Values *)

(** A derived value is what a transform returns: the string itself, a Python
    [int] or a Python [float] (an IEEE binary64, in the Standard Library's
    specification format). *)
Inductive value : Type :=
| VStr (s : string)
| VInt (z : Z)
| VFloat (f : spec_float).

(** Python compares numbers by their exact mathematical value; [nan] equals
    nothing, the two zeros are equal. *)
Inductive xnum : Type :=
| XNaN
| XInf (neg : bool)
| XFin (q : Q).

Definition float_xnum (f : spec_float) : xnum :=
  match f with
  | S754_zero _ => XFin 0
  | S754_infinity s => XInf s
  | S754_nan => XNaN
  | S754_finite s m e =>
      XFin (inject_Z (if s then Z.neg m else Z.pos m) * Qpower 2 e)
  end.

Definition xnum_eqb (a b : xnum) : bool :=
  match a, b with
  | XFin p, XFin q => Qeq_bool p q
  | XInf s, XInf s' => Bool.eqb s s'
  | _, _ => false
  end.

Definition value_xnum (v : value) : option xnum :=
  match v with
  | VStr _ => None
  | VInt z => Some (XFin (inject_Z z))
  | VFloat f => Some (float_xnum f)
  end.

(** [v == w] *)
Definition value_eqb (v w : value) : bool :=
  match v, w with
  | VStr a, VStr b => String.eqb a b
  | _, _ =>
      match value_xnum v, value_xnum w with
      | Some a, Some b => xnum_eqb a b
      | _, _ => false
      end
  end.

(** A grouping key is a tuple of values; tuples compare element-wise. *)
Definition key := list value.

Fixpoint key_eqb (k1 k2 : key) : bool :=
  match k1, k2 with
  | [], [] => true
  | v :: k1', w :: k2' => value_eqb v w && key_eqb k1' k2'
  | _, _ => false
  end.

(** ** Series and output documents *)

(** A point is the two-element list [[x_val, y_val]]: the x value stays a
    string, the y value went through the points transform. *)
Definition point := (string * value)%type.

(** The entry the [defaultdict] holds for one grouping key. *)
Record series : Type := { points : list point; fields : Dict.t value }.

(** [lambda: {"points": [], "fields": {}}] *)
Definition default_series : series := {| points := []; fields := [] |}.

(** The dictionary handed to [json.dumps]. *)
Record series_json : Type := {
  series_id : string;
  doc_points : list point;
  doc_fields : Dict.t value
}.

(** ** The interpreter's built-ins *)

Class Builtins : Type := {
  (** [s.lower()] *)
  str_lower : string -> string;
  (** [s.strip()] *)
  str_strip : string -> string;
  (** [float(s)]; [None] stands for a [ValueError]. *)
  py_float : string -> option spec_float;
  (** [int(s)]; [None] stands for a [ValueError]. *)
  py_int : string -> option Z;
  (** [repr(f)] of a float, which is also its [str] and its [format]. *)
  float_repr : spec_float -> string;
  (** [json.dumps(doc)], or [json.dumps(doc, indent=2)] when the flag is set. *)
  json_dumps : bool -> series_json -> string
}.

(** ** The schema *)

Record field_cfg : Type := {
  source : option string;
  transform : option string
}.

Record points_cfg : Type := {
  points_x : option string;
  points_y : option string;
  points_transform : option string
}.

(** The schema dictionary as [json.load] returns it; a section that the
    file leaves out is [None]. *)
Record schema : Type := {
  schema_group_by : option (list string);
  schema_fields : option (Dict.t field_cfg);
  schema_points : option points_cfg;
  schema_id_template : option string;
  schema_mappings : option (Dict.t (Dict.t string))
}.

(** [schema.get("group_by", [])] and its four siblings. *)
Definition group_by (sc : schema) : list string :=
  get_or (schema_group_by sc) [].

Definition fields_schema (sc : schema) : Dict.t field_cfg :=
  get_or (schema_fields sc) [].

Definition points_schema (sc : schema) : points_cfg :=
  get_or (schema_points sc)
    {| points_x := None; points_y := None; points_transform := None |}.

Definition id_template (sc : schema) : string :=
  get_or (schema_id_template sc) EmptyString.

Definition mappings (sc : schema) : Dict.t (Dict.t string) :=
  get_or (schema_mappings sc) [].

(** One record of [csv.DictReader], for a line that has as many values as
    the header has names: column name to raw text. *)
Definition raw_row := Dict.t string.

Definition newline : string := String "010" EmptyString.

(** [str(z)] of a Python int. *)
Definition int_str (z : Z) : string :=
  NilZero.string_of_int (Z.to_int z).

Section Engine.
Context {B : Builtins}.

(** *** Transforms *)

(** [transform_funcs.get(tag, lambda x: x)]: the two numeric coercions,
    and the identity for an absent, null or unknown tag. *)
Definition transform_funcs (tag : option string) (x : string) : result value :=
  match tag with
  | None => Ok (VStr x)
  | Some t =>
      if String.eqb t "float" then
        f <- of_option (py_float x) ValueError ;; Ok (VFloat f)
      else if String.eqb t "int" then
        z <- of_option (py_int x) ValueError ;; Ok (VInt z)
      else Ok (VStr x)
  end.

(** *** Row normaliser *)

(** [{k.lower(): v.strip() for k, v in row.items()}] *)
Definition lower_strip (raw : raw_row) : Dict.t string :=
  fold_left (fun d kv => Dict.set d (str_lower (fst kv)) (str_strip (snd kv)))
            raw [].

(** The body of the mappings loop. *)
Definition apply_mapping (row : Dict.t string) (m : string * Dict.t string)
  : Dict.t string :=
  let col_lower := str_lower (fst m) in
  match Dict.get row col_lower with
  | Some v => Dict.set row col_lower (get_or (Dict.get (snd m) v) v)
  | None => row
  end.

Definition normalize_row (mappings : Dict.t (Dict.t string)) (raw : raw_row)
  : Dict.t string :=
  fold_left apply_mapping mappings (lower_strip raw).

(** *** Field and point derivation *)

(** The body of the fields loop: [cfg["source"]] raises on a missing key,
    [row.get] with its empty-string default does not. *)
Definition map_field (row : Dict.t string) (fields : Dict.t value)
           (kc : string * field_cfg) : result (Dict.t value) :=
  src <- of_option (source (snd kc)) (KeyError "source") ;;
  let val := get_or (Dict.get row (str_lower src)) EmptyString in
  v <- transform_funcs (transform (snd kc)) val ;;
  Ok (Dict.set fields (fst kc) v).

Definition map_fields (fields_schema : Dict.t field_cfg) (row : Dict.t string)
  : result (Dict.t value) :=
  fold_result (map_field row) fields_schema [].

(** [tuple(fields[g] for g in group_by)] *)
Definition grouping_key (group_by : list string) (fields : Dict.t value)
  : result key :=
  map_result (fun g => of_option (Dict.get fields g) (KeyError g)) group_by.

(** [points_schema.get("x").lower()]: an absent column name is [None],
    which has no [lower]. *)
Definition point_column (name : option string) : result string :=
  s <- of_option name AttributeError ;; Ok (str_lower s).

(** Truth value of a string. *)
Definition nonempty (s : string) : bool :=
  match s with
  | EmptyString => false
  | String _ _ => true
  end.

(** The point of a row, if it has one. *)
Definition derive_point (ps : points_cfg) (row : Dict.t string)
  : result (option point) :=
  xc <- point_column (points_x ps) ;;
  let x_val := get_or (Dict.get row xc) EmptyString in
  yc <- point_column (points_y ps) ;;
  let y_val := get_or (Dict.get row yc) EmptyString in
  if nonempty x_val && nonempty y_val then
    y <- transform_funcs (points_transform ps) y_val ;;
    Ok (Some (x_val, y))
  else Ok None.

(** *** Grouping aggregator *)

Definition series_dict := list (key * series).

(** Access to [series_dict[key]]: the entry whose key equals [k] is
    updated, and a missing key gets the default entry, at the end. *)
Fixpoint sd_update (sd : series_dict) (k : key) (f : series -> series)
  : series_dict :=
  match sd with
  | [] => [(k, f default_series)]
  | (k', data) :: sd' =>
      if key_eqb k' k then (k', f data) :: sd'
      else (k', data) :: sd_update sd' k f
  end.

(** [if not data["fields"]: data["fields"] = fields] *)
Definition init_fields (fs : Dict.t value) (data : series) : series :=
  if Dict.is_empty (fields data)
  then {| points := points data; fields := fs |}
  else data.

(** [data["points"].append([x_val, y_val])], when the row has a point. *)
Definition add_point (pt : option point) (data : series) : series :=
  match pt with
  | Some p => {| points := (points data ++ [p])%list; fields := fields data |}
  | None => data
  end.

(** The body of the reading loop.  The three accesses to
    [series_dict[key]] use one tuple object, so they reach one entry; an
    exception leaves the loop before anything is printed, so the entry the
    source has created by then is never observed. *)
Definition process_row (sc : schema) (sd : series_dict) (raw : raw_row)
  : result series_dict :=
  let row := normalize_row (mappings sc) raw in
  fs <- map_fields (fields_schema sc) row ;;
  k <- grouping_key (group_by sc) fs ;;
  pt <- derive_point (points_schema sc) row ;;
  Ok (sd_update sd k (fun data => add_point pt (init_fields fs data))).

(** [for row in reader: ...] *)
Definition read_rows (sc : schema) (rows : list raw_row) : result series_dict :=
  fold_result (process_row sc) rows [].
End Engine.

(** ** Template rendering: [id_template.format] on the fields as keywords *)

(** The scanner of [str.format] reads the template once, left to right: it
    is in literal text, just after a brace, or inside a replacement field
    whose name it is collecting. *)
Inductive fmt_state : Type :=
| InText
| AfterOpen
| AfterClose
| InField (name : string).

Definition is_digit (c : ascii) : bool :=
  (48 <=? nat_of_ascii c)%nat && (nat_of_ascii c <=? 57)%nat.

Fixpoint all_digits (s : string) : bool :=
  match s with
  | EmptyString => true
  | String c s' => is_digit c && all_digits s'
  end.

(** The characters that start a conversion, a format specification, an
    attribute or an index: these forms are outside the embedding. *)
Definition is_field_operator (c : ascii) : bool :=
  Ascii.eqb c "!" || Ascii.eqb c ":" || Ascii.eqb c "." || Ascii.eqb c "[".

Section Emitter.
Context {B : Builtins}.

(** [str(v)], which is what an empty format specification gives. *)
Definition value_str (v : value) : string :=
  match v with
  | VStr s => s
  | VInt z => int_str z
  | VFloat f => float_repr f
  end.

(** The value of a replacement field.  Only keyword arguments are passed,
    so an empty or numeric name indexes the empty positional tuple. *)
Definition get_field (kwargs : Dict.t value) (name : string) : result string :=
  if nonempty name then
    if all_digits name then
      if (String.length name <=? 18)%nat then Raise IndexError
      else Raise NotModelled
    else
      v <- of_option (Dict.get kwargs name) (KeyError name) ;;
      Ok (value_str v)
  else Raise IndexError.

(** One character inside the braces of a replacement field. *)
Definition field_step (kwargs : Dict.t value) (name out : string) (c : ascii)
  : result (fmt_state * string) :=
  if Ascii.eqb c "}" then
    s <- get_field kwargs name ;; Ok (InText, out ++ s)
  else if Ascii.eqb c "{" then Raise ValueError
  else if is_field_operator c then Raise NotModelled
  else Ok (InField (name ++ String c EmptyString), out).

Definition fmt_step (kwargs : Dict.t value) (st : fmt_state) (out : string)
           (c : ascii) : result (fmt_state * string) :=
  match st with
  | InText =>
      if Ascii.eqb c "{" then Ok (AfterOpen, out)
      else if Ascii.eqb c "}" then Ok (AfterClose, out)
      else Ok (InText, out ++ String c EmptyString)
  | AfterOpen =>
      if Ascii.eqb c "{" then Ok (InText, out ++ "{")
      else field_step kwargs EmptyString out c
  | AfterClose =>
      if Ascii.eqb c "}" then Ok (InText, out ++ "}")
      else Raise ValueError
  | InField name => field_step kwargs name out c
  end.

Fixpoint format_from (kwargs : Dict.t value) (st : fmt_state) (out tpl : string)
  : result string :=
  match tpl with
  | EmptyString =>
      match st with
      | InText => Ok out
      | _ => Raise ValueError
      end
  | String c tpl' =>
      r <- fmt_step kwargs st out c ;;
      format_from kwargs (fst r) (snd r) tpl'
  end.

Definition format (tpl : string) (kwargs : Dict.t value) : result string :=
  format_from kwargs InText EmptyString tpl.

(** ** Series emitter *)

(** [points.sort(key=lambda x: x[0])]: a stable sort on the x string. *)
Fixpoint insert_point (p : point) (l : list point) : list point :=
  match l with
  | [] => [p]
  | q :: l' =>
      if String.leb (fst p) (fst q) then p :: q :: l'
      else q :: insert_point p l'
  end.

Definition sort_points (l : list point) : list point :=
  fold_right insert_point [] l.

(** The body both output loops share: sort, render the id, build the
    document. *)
Definition make_series_json (id_template : string) (data : series)
  : result series_json :=
  let pts := sort_points (points data) in
  sid <- format id_template (fields data) ;;
  Ok {| series_id := sid; doc_points := pts; doc_fields := fields data |}.

(** What a run leaves behind: the text written to standard output, the
    documents it serialised, and the exception that ended it, if any. *)
Record run : Type := {
  stdout : string;
  emitted : list series_json;
  raised : option exn
}.

(** The array loop, with [first] and the text written so far; it ends
    with [print("\n]")]. *)
Fixpoint emit_array (id_template : string) (datas : list series)
         (first : bool) (out : string) (docs : list series_json) : run :=
  match datas with
  | [] =>
      {| stdout := out ++ newline ++ "]" ++ newline;
         emitted := docs; raised := None |}
  | data :: datas' =>
      match make_series_json id_template data with
      | Raise e => {| stdout := out; emitted := docs; raised := Some e |}
      | Ok doc =>
          let out' := if first then out else out ++ "," in
          emit_array id_template datas' false
                     (out' ++ json_dumps true doc) (docs ++ [doc])%list
      end
  end.

(** The line-delimited loop: [print(json.dumps(series_json))]. *)
Fixpoint emit_lines (id_template : string) (datas : list series)
         (out : string) (docs : list series_json) : run :=
  match datas with
  | [] => {| stdout := out; emitted := docs; raised := None |}
  | data :: datas' =>
      match make_series_json id_template data with
      | Raise e => {| stdout := out; emitted := docs; raised := Some e |}
      | Ok doc =>
          emit_lines id_template datas'
                     (out ++ json_dumps false doc ++ newline) (docs ++ [doc])%list
      end
  end.

(** [generate_json(csv_file, schema, array_output)], on the rows the
    reader yields for [csv_file]. *)
Definition generate_json (rows : list raw_row) (sc : schema)
           (array_output : bool) : run :=
  match read_rows sc rows with
  | Raise e => {| stdout := EmptyString; emitted := []; raised := Some e |}
  | Ok series_dict =>
      let datas := map snd series_dict in
      if array_output then
        emit_array (id_template sc) datas true ("[" ++ newline) []
      else
        emit_lines (id_template sc) datas EmptyString []
  end.
End Emitter.

(** ** What differs between two runs

    The interpreter hashes strings with a seed drawn for each process, and
    hashes a [nan] by the address of its object.  A dictionary finds a key
    through its hash: an entry is the one looked for when the hashes are
    equal and then the keys are.  Two runs on one input differ in these
    hashes and in nothing else that the program reads. *)

Record run_env : Type := {
  (** the hash of a string, under the seed of the run *)
  str_hash : string -> Z;
  (** the hash of a finite number, a function of its value in lowest terms *)
  num_hash : Q -> Z;
  (** the hash of an infinity, by its sign *)
  inf_hash : bool -> Z;
  (** the hash of a [nan]; no key equals a [nan], so none is found by it *)
  nan_hash : Z;
  (** the hash of a tuple, from the hashes of its items *)
  tuple_hash : list Z -> Z
}.



(** [d.get(k)] on a dictionary keyed by strings, through the hash. *)
Fixpoint get_hashed {V : Type} (env : run_env) (d : Dict.t V) (k : string)
  : option V :=
  match d with
  | [] => None
  | (k', v) :: d' =>
      if (str_hash env k' =? str_hash env k)%Z && String.eqb k' k then Some v
      else get_hashed env d' k
  end.

Section HashedRun.
Context {B : Builtins}.
Variable env : run_env.




End HashedRun.

(** ** The records of [csv.DictReader]

    [csv.reader] gives each line as a list of strings; [csv.DictReader]
    takes the first as the field names, skips the empty lists of blank
    lines, and makes a dictionary of each other line. *)

(** The dictionary of one line: the named columns, with [None] (the
    default [restval]) as the value of a column that a short line does not
    reach, and, under the key [None] (the default [restkey]), the values of
    a long line beyond the field names. *)
Record reader_row : Type := {
  named : Dict.t (option string);
  rest : option (list string)
}.

(** [dict(zip(fieldnames, row))], then [d[restkey] = row[lf:]] when the
    line is long and [d[key] = restval] for the names it does not reach
    when it is short. *)
Definition dict_reader_row (fieldnames record : list string) : reader_row :=
  let d := fold_left (fun d kv => Dict.set d (fst kv) (Some (snd kv)))
                     (combine fieldnames record) [] in
  if (List.length fieldnames <? List.length record)%nat then
    {| named := d; rest := Some (skipn (List.length fieldnames) record) |}
  else
    {| named := fold_left (fun d k => Dict.set d k None)
                          (skipn (List.length record) fieldnames) d;
       rest := None |}.

Definition is_blank (record : list string) : bool :=
  match record with
  | [] => true
  | _ :: _ => false
  end.

(** The rows that [for row in reader] goes through. *)
Definition dict_reader (fieldnames : list string) (records : list (list string))
  : list reader_row :=
  map (dict_reader_row fieldnames)
      (filter (fun record => negb (is_blank record)) records).

(** The record of a line with as many values as there are field names, as
    a dictionary from name to text. *)
Definition zip_record (fieldnames record : list string) : raw_row :=
  fold_left (fun d kv => Dict.set d (fst kv) (snd kv))
            (combine fieldnames record) [].

(** The reader's record of such a line: every column named, each with its
    text, and nothing under the key [None]. *)
Definition full_row (raw : raw_row) : reader_row :=
  {| named := map (fun kv => (fst kv, Some (snd kv))) raw; rest := None |}.

(** A line that is neither blank nor of the length of the header. *)
Definition ragged (fieldnames record : list string) : Prop :=
  record <> [] /\ List.length record <> List.length fieldnames.

Section ReaderRows.
Context {B : Builtins}.

(** [{k.lower(): v.strip() for k, v in row.items()}] on a record of the
    reader: [None] has neither [lower] nor [strip]. *)
Definition lower_strip_reader (rr : reader_row) : result (Dict.t string) :=
  d <- fold_result
         (fun d kv =>
            v <- of_option (snd kv) AttributeError ;;
            Ok (Dict.set d (str_lower (fst kv)) (str_strip v)))
         (named rr) [] ;;
  match rest rr with
  | Some _ => Raise AttributeError
  | None => Ok d
  end.

(** The loop body after the mappings, on the normalised row. *)
Definition process_normalized (sc : schema) (sd : series_dict)
           (row : Dict.t string) : result series_dict :=
  fs <- map_fields (fields_schema sc) row ;;
  k <- grouping_key (group_by sc) fs ;;
  pt <- derive_point (points_schema sc) row ;;
  Ok (sd_update sd k (fun data => add_point pt (init_fields fs data))).

(** The body of the reading loop on a record of the reader. *)
Definition process_reader_row (sc : schema) (sd : series_dict)
           (rr : reader_row) : result series_dict :=
  base <- lower_strip_reader rr ;;
  process_normalized sc sd (fold_left apply_mapping (mappings sc) base).

Definition read_reader_rows (sc : schema) (rrs : list reader_row)
  : result series_dict :=
  fold_result (process_reader_row sc) rrs [].

(** [generate_json] on the lines of the file, as [csv.reader] splits them:
    the field names, then the records. *)
Definition generate_json_csv (fieldnames : list string)
           (records : list (list string)) (sc : schema) (array_output : bool)
  : run :=
  match read_reader_rows sc (dict_reader fieldnames records) with
  | Raise e => {| stdout := EmptyString; emitted := []; raised := Some e |}
  | Ok series_dict =>
      let datas := map snd series_dict in
      if array_output then
        emit_array (id_template sc) datas true ("[" ++ newline) []
      else
        emit_lines (id_template sc) datas EmptyString []
  end.
End ReaderRows.

(** ** A reference instance of the built-ins

    Text is over the 256 code points of Latin-1, one per [ascii]. *)

Module Py.
Local Open Scope Z_scope.

Definition in_range (lo hi : N) (c : ascii) : bool :=
  (lo <=? N_of_ascii c)%N && (N_of_ascii c <=? hi)%N.

(** Upper-case letters are [A]-[Z] and U+00C0-U+00DE without U+00D7. *)
Definition lower_char (c : ascii) : ascii :=
  if in_range 65 90 c || (in_range 192 222 c && negb (in_range 215 215 c))
  then ascii_of_N (N_of_ascii c + 32)
  else c.

Fixpoint lower (s : string) : string :=
  match s with
  | EmptyString => EmptyString
  | String c s' => String (lower_char c) (lower s')
  end.

(** The code points for which [isspace] holds. *)
Definition is_space (c : ascii) : bool :=
  in_range 9 13 c || in_range 28 32 c || in_range 133 133 c
  || in_range 160 160 c.

Fixpoint lstrip (s : string) : string :=
  match s with
  | EmptyString => EmptyString
  | String c s' => if is_space c then lstrip s' else s
  end.

Fixpoint rstrip (s : string) : string :=
  match s with
  | EmptyString => EmptyString
  | String c s' =>
      match rstrip s' with
      | EmptyString => if is_space c then EmptyString else String c EmptyString
      | r => String c r
      end
  end.

Definition strip (s : string) : string := rstrip (lstrip s).

(** *** Numeric literals *)

Definition digit_val (c : ascii) : Z := Z.of_N (N_of_ascii c) - 48.

(** The rest of a digit part: digits, each optionally preceded by one
    underscore.  Returns the value, the number of digits and what is left. *)
Fixpoint digit_run (s : string) (acc n : Z) : Z * Z * string :=
  match s with
  | EmptyString => (acc, n, s)
  | String c s' =>
      if is_digit c then digit_run s' (10 * acc + digit_val c) (n + 1)
      else if Ascii.eqb c "_" then
        match s' with
        | String d s'' =>
            if is_digit d then digit_run s'' (10 * acc + digit_val d) (n + 1)
            else (acc, n, s)
        | EmptyString => (acc, n, s)
        end
      else (acc, n, s)
  end.

Definition digitpart (s : string) : option (Z * Z * string) :=
  match s with
  | String c s' => if is_digit c then Some (digit_run s' (digit_val c) 1) else None
  | EmptyString => None
  end.

Definition sign_of (s : string) : bool * string :=
  match s with
  | String c s' =>
      if Ascii.eqb c "-" then (true, s')
      else if Ascii.eqb c "+" then (false, s')
      else (false, s)
  | EmptyString => (false, s)
  end.

(** The white space that [int] and [float] skip around a literal: that of
    [isspace] without U+001C-U+001F. *)
Definition is_literal_space (c : ascii) : bool :=
  in_range 9 13 c || in_range 32 32 c || in_range 133 133 c
  || in_range 160 160 c.

Fixpoint literal_lstrip (s : string) : string :=
  match s with
  | EmptyString => EmptyString
  | String c s' => if is_literal_space c then literal_lstrip s' else s
  end.

Fixpoint literal_rstrip (s : string) : string :=
  match s with
  | EmptyString => EmptyString
  | String c s' =>
      match literal_rstrip s' with
      | EmptyString =>
          if is_literal_space c then EmptyString else String c EmptyString
      | r => String c r
      end
  end.

Definition literal_strip (s : string) : string :=
  literal_rstrip (literal_lstrip s).

(** The interpreter's default limit on the digits of a decimal literal. *)
Definition max_str_digits : Z := 4300.

(** [int(s)] in base ten. *)
Definition int_of_string (s : string) : option Z :=
  let (neg, s1) := sign_of (literal_strip s) in
  match digitpart s1 with
  | Some (v, n, EmptyString) =>
      if n <=? max_str_digits then Some (if neg then - v else v) else None
  | _ => None
  end.

(** *** Floats *)

Definition prec : Z := 53.
Definition emax : Z := 1024.

(** The binary64 nearest to [num / den] (ties to even), for positive
    [num] and [den]: the quotient is taken with at least two bits more
    than the format holds, and a sticky bit records a non-zero rest. *)
Definition round_ratio (neg : bool) (num den : Z) : spec_float :=
  let s := Z.max 0 (55 + Z.log2 den - Z.log2 num) in
  let q := (num * 2 ^ s) / den in
  let sticky := if (num * 2 ^ s) mod den =? 0 then 0 else 1 in
  let m := 2 * q + sticky in
  binary_normalize prec emax (if neg then - m else m) (- s - 1) neg.

(** The float nearest to [m * 10 ^ e10], for [0 <= m]. *)
Definition decimal_to_float (neg : bool) (m e10 : Z) : spec_float :=
  if m =? 0 then S754_zero neg
  else if 0 <=? e10 then round_ratio neg (m * 10 ^ e10) 1
  else round_ratio neg m (10 ^ (- e10)).

(** [number]: mantissa digits as an integer, and how many of them follow
    the point. *)
Definition number (s : string) : option (Z * Z * string) :=
  match digitpart s with
  | Some (i, _, String c r) =>
      if Ascii.eqb c "." then
        match digitpart r with
        | Some (f, nf, r') => Some (i * 10 ^ nf + f, nf, r')
        | None => Some (i, 0, r)
        end
      else Some (i, 0, String c r)
  | Some (i, _, EmptyString) => Some (i, 0, EmptyString)
  | None =>
      match s with
      | String c r =>
          if Ascii.eqb c "." then
            match digitpart r with
            | Some (f, nf, r') => Some (f, nf, r')
            | None => None
            end
          else None
      | EmptyString => None
      end
  end.

Definition exponent (s : string) : option Z :=
  match s with
  | EmptyString => Some 0
  | String c r =>
      if Ascii.eqb c "e" || Ascii.eqb c "E" then
        let (neg, r1) := sign_of r in
        match digitpart r1 with
        | Some (v, _, EmptyString) => Some (if neg then - v else v)
        | _ => None
        end
      else None
  end.

(** [float(s)] *)
Definition float_of_string (s : string) : option spec_float :=
  let (neg, s1) := sign_of (literal_strip s) in
  let l := lower s1 in
  if String.eqb l "inf" || String.eqb l "infinity" then Some (S754_infinity neg)
  else if String.eqb l "nan" then Some S754_nan
  else
    match number s1 with
    | Some (m, nf, r) =>
        match exponent r with
        | Some e => Some (decimal_to_float neg m (e - nf))
        | None => None
        end
    | None => None
    end.

(** *** [repr] of a float: the shortest decimal that reads back as it *)

Definition sf_eqb (a b : spec_float) : bool :=
  match a, b with
  | S754_zero s, S754_zero s' => Bool.eqb s s'
  | S754_infinity s, S754_infinity s' => Bool.eqb s s'
  | S754_nan, S754_nan => true
  | S754_finite s m e, S754_finite s' m' e' =>
      Bool.eqb s s' && Pos.eqb m m' && Z.eqb e e'
  | _, _ => false
  end.

(** The decimal point position [k] of [num / den]:
    [10 ^ (k - 1) <= num / den < 10 ^ k]. *)
Fixpoint scale_up (fuel : nat) (num den k : Z) : Z :=
  match fuel with
  | O => k
  | S fuel' => if num <? den then scale_up fuel' (10 * num) den (k - 1) else k
  end.

Definition decpt (num den : Z) : Z :=
  if den <=? num then Z.of_nat (String.length (int_str (num / den)))
  else scale_up 400 (10 * num) den 0.

(** The two [p]-digit decimals around [num / den], the nearer first. *)
Definition neighbours (num den k p : Z) : Z * Z :=
  let n := if 0 <=? p - k then num * 10 ^ (p - k) else num in
  let d := if 0 <=? p - k then den else den * 10 ^ (k - p) in
  let lo := n / d in
  let r := n mod d in
  if 2 * r <? d then (lo, lo + 1)
  else if d <? 2 * r then (lo + 1, lo)
  else if Z.even lo then (lo, lo + 1) else (lo + 1, lo).

Fixpoint shortest (fuel : nat) (target : spec_float) (num den k p : Z) : Z * Z :=
  let (c1, c2) := neighbours num den k p in
  match fuel with
  | O => (c1, p)
  | S fuel' =>
      if sf_eqb (decimal_to_float false c1 (k - p)) target then (c1, p)
      else if sf_eqb (decimal_to_float false c2 (k - p)) target then (c2, p)
      else shortest fuel' target num den k (p + 1)
  end.

Fixpoint zeros (n : nat) : string :=
  match n with
  | O => EmptyString
  | S n' => String "0" (zeros n')
  end.

Fixpoint strip_zeros (s : string) : string :=
  match s with
  | EmptyString => EmptyString
  | String c s' =>
      match strip_zeros s' with
      | EmptyString => if Ascii.eqb c "0" then EmptyString else String c EmptyString
      | r => String c r
      end
  end.

(** Digits [ds] with the point after the first [k] of them: positional
    notation for [-4 < k <= 16], scientific notation otherwise. *)
Definition place_point (ds : string) (k : Z) : string :=
  let len := String.length ds in
  if (-4 <? k) && (k <=? 16) then
    if k <=? 0 then "0." ++ zeros (Z.to_nat (- k)) ++ ds
    else if (Z.of_nat len <=? k) then ds ++ zeros (Z.to_nat k - len) ++ ".0"
    else substring 0 (Z.to_nat k) ds ++ "." ++ substring (Z.to_nat k) (len - Z.to_nat k) ds
  else
    let e := k - 1 in
    let digits := int_str (Z.abs e) in
    substring 0 1 ds
    ++ (if (1 <? len)%nat then "." ++ substring 1 (len - 1) ds else EmptyString)
    ++ "e" ++ (if e <? 0 then "-" else "+")
    ++ (if (String.length digits <? 2)%nat then "0" else EmptyString) ++ digits.

Definition repr_finite (neg : bool) (m : positive) (e : Z) : string :=
  let num := if 0 <=? e then Z.pos m * 2 ^ e else Z.pos m in
  let den := if 0 <=? e then 1 else 2 ^ (- e) in
  let k := decpt num den in
  let (d, p) := shortest 16 (S754_finite false m e) num den k 1 in
  let ds := int_str d in
  let k' := k + Z.of_nat (String.length ds) - p in
  (if neg then "-" else EmptyString) ++ place_point (strip_zeros ds) k'.

Definition repr (f : spec_float) : string :=
  match f with
  | S754_zero s => if s then "-0.0" else "0.0"
  | S754_infinity s => if s then "-inf" else "inf"
  | S754_nan => "nan"
  | S754_finite s m e => repr_finite s m e
  end.

(** *** [json.dumps] *)

Definition quote : string := String "034" EmptyString.
Definition backslash : string := String "092" EmptyString.

Definition hex_digit (n : N) : string :=
  substring (N.to_nat n) 1 "0123456789abcdef".

(** [ensure_ascii] is on: what is not between space and tilde, or is a
    quote or a backslash, is escaped. *)
Definition escape_char (c : ascii) : string :=
  let n := N_of_ascii c in
  if (n =? 34)%N then backslash ++ quote
  else if (n =? 92)%N then backslash ++ backslash
  else if (n =? 10)%N then backslash ++ "n"
  else if (n =? 13)%N then backslash ++ "r"
  else if (n =? 9)%N then backslash ++ "t"
  else if (n =? 8)%N then backslash ++ "b"
  else if (n =? 12)%N then backslash ++ "f"
  else if in_range 32 126 c then String c EmptyString
  else backslash ++ "u00" ++ hex_digit (n / 16) ++ hex_digit (n mod 16).

Fixpoint escape (s : string) : string :=
  match s with
  | EmptyString => EmptyString
  | String c s' => escape_char c ++ escape s'
  end.

Definition json_string (s : string) : string := quote ++ escape s ++ quote.

Definition json_value (v : value) : string :=
  match v with
  | VStr s => json_string s
  | VInt z => int_str z
  | VFloat S754_nan => "NaN"
  | VFloat (S754_infinity s) => if s then "-Infinity" else "Infinity"
  | VFloat f => repr f
  end.

Fixpoint join (sep : string) (l : list string) : string :=
  match l with
  | [] => EmptyString
  | [a] => a
  | a :: l' => a ++ sep ++ join sep l'
  end.

Definition spaces (n : nat) : string := concat EmptyString (repeat " " n).

(** A list or an object whose items are already serialised, at nesting
    depth [level]; [indent] is the flag of [json_dumps]. *)
Definition container (indent : bool) (level : nat) (opening closing : string)
           (items : list string) : string :=
  match items with
  | [] => opening ++ closing
  | _ =>
      if indent then
        let pad := newline ++ spaces (2 * (level + 1)) in
        opening ++ pad ++ join ("," ++ pad) items
        ++ newline ++ spaces (2 * level) ++ closing
      else opening ++ join ", " items ++ closing
  end.

Definition json_point (indent : bool) (level : nat) (p : point) : string :=
  container indent level "[" "]" [json_string (fst p); json_value (snd p)].

Definition json_member (k v : string) : string := json_string k ++ ": " ++ v.

Definition dumps (indent : bool) (doc : series_json) : string :=
  container indent 0 "{" "}"
    [ json_member "series_id" (json_string (series_id doc));
      json_member "points"
        (container indent 1 "[" "]" (map (json_point indent 2) (doc_points doc)));
      json_member "fields"
        (container indent 1 "{" "}"
           (map (fun kv => json_member (fst kv) (json_value (snd kv)))
                (doc_fields doc))) ].
End Py.

#[export] Instance python : Builtins := {|
  str_lower := Py.lower;
  str_strip := Py.strip;
  py_float := Py.float_of_string;
  py_int := Py.int_of_string;
  float_repr := Py.repr;
  json_dumps := Py.dumps
|}.

(** ** Vocabulary of the statements *)

Section Vocabulary.
Context {B : Builtins}.

(** The pair a raw column becomes. *)
Definition lower_strip_entry (kv : string * string) : string * string :=
  (str_lower (fst kv), str_strip (snd kv)).

(** What one raw row derives, each taken on its normalised form. *)
Definition row_fields (sc : schema) (r : raw_row) : result (Dict.t value) :=
  map_fields (fields_schema sc) (normalize_row (mappings sc) r).

Definition row_key (sc : schema) (r : raw_row) : result key :=
  fs <- row_fields sc r ;; grouping_key (group_by sc) fs.

Definition row_points (sc : schema) (r : raw_row) : list point :=
  match derive_point (points_schema sc) (normalize_row (mappings sc) r) with
  | Ok (Some p) => [p]
  | _ => []
  end.

(** The points that the rows of [rows] with a key equal to [k] add. *)
Definition points_for (sc : schema) (k : key) (rows : list raw_row) : list point :=
  flat_map (fun r =>
              match row_key sc r with
              | Ok k' => if key_eqb k k' then row_points sc r else []
              | Raise _ => []
              end) rows.
(** What the grouping map says of one of its entries after the rows
    [processed]: the entry was created by a row [r] whose key no earlier row
    had; its fields are the fields derived from [r]; its points are the
    point of [r] and then the points of the later rows with an equal key. *)
Definition entry_spec (sc : schema) (processed : list raw_row)
           (e : key * series) : Prop :=
  exists pre r post fs,
    processed = (pre ++ r :: post)%list
    /\ row_fields sc r = Ok fs
    /\ grouping_key (group_by sc) fs = Ok (fst e)
    /\ (forall r' k',
          In r' pre -> row_key sc r' = Ok k' -> key_eqb (fst e) k' = false)
    /\ fields (snd e) = fs
    /\ points (snd e) = (row_points sc r ++ points_for sc (fst e) post)%list.

(** The invariant of the reading loop: no two entries have equal keys, every
    entry is as [entry_spec] says, and the key of every processed row is the
    key of an entry or equal to it. *)
Definition aggregated (sc : schema) (processed : list raw_row)
           (sd : series_dict) : Prop :=
  ForallOrdPairs (fun k1 k2 => key_eqb k1 k2 = false) (map fst sd)
  /\ Forall (entry_spec sc processed) sd
  /\ (forall r' k',
        In r' processed -> row_key sc r' = Ok k' ->
        exists k1, In k1 (map fst sd) /\ (k1 = k' \/ key_eqb k1 k' = true)).
End Vocabulary.

(** Order of two points by their x strings. *)
Definition x_le (p q : point) : Prop := String.leb (fst p) (fst q) = true.

(** A plain placeholder name: not empty, not a number, and free of braces
    and of the characters that start a conversion, a format specification,
    an attribute or an index. *)
Fixpoint plain_chars (s : string) : bool :=
  match s with
  | EmptyString => true
  | String c s' =>
      negb (Ascii.eqb c "{") && negb (Ascii.eqb c "}")
      && negb (is_field_operator c) && plain_chars s'
  end.

Definition is_name (s : string) : bool :=
  nonempty s && negb (all_digits s) && plain_chars s.

(** ** The scenarios of the specification *)

Definition rows_A : list raw_row :=
  [ [("category", "A"); ("x", "1"); ("y", "10")];
    [("category", "A"); ("x", "2"); ("y", "20")] ].

Definition schema_A (template : option string) : schema := {|
  schema_group_by := Some ["category"];
  schema_fields :=
    Some [("category", {| source := Some "category"; transform := None |})];
  schema_points :=
    Some {| points_x := Some "x"; points_y := Some "y";
            points_transform := Some "float" |};
  schema_id_template := template;
  schema_mappings := None
|}.

(** A first row whose numeric field does not parse, under a schema that
    groups by a field it does not declare. *)
Definition schema_undeclared : schema := {|
  schema_group_by := Some ["region"];
  schema_fields :=
    Some [("amount", {| source := Some "amount"; transform := Some "int" |})];
  schema_points :=
    Some {| points_x := Some "x"; points_y := Some "y";
            points_transform := None |};
  schema_id_template := None;
  schema_mappings := None
|}.

Definition rows_unparsable : list raw_row :=
  [ [("amount", "abc"); ("x", "1"); ("y", "2")] ].

(** Scenario A without its [points] section. *)
Definition schema_no_points : schema := {|
  schema_group_by := Some ["category"];
  schema_fields :=
    Some [("category", {| source := Some "category"; transform := None |})];
  schema_points := None;
  schema_id_template := None;
  schema_mappings := None
|}.

(** Two rows of one category that disagree on a second field, the second
    row with the smaller x. *)
Definition schema_labels : schema := {|
  schema_group_by := Some ["category"];
  schema_fields :=
    Some [("category", {| source := Some "Category"; transform := None |});
          ("label", {| source := Some "Label"; transform := None |})];
  schema_points :=
    Some {| points_x := Some "x"; points_y := Some "y";
            points_transform := Some "int" |};
  schema_id_template := Some "{category}/{label}";
  schema_mappings := None
|}.

Definition rows_labels : list raw_row :=
  [ [("category", "A"); ("label", "first"); ("x", "2"); ("y", "5")];
    [("category", "A"); ("label", "second"); ("x", "1"); ("y", "7")] ].

(** The binary64 of a whole number. *)
Definition float_of_Z (z : Z) : spec_float :=
  binary_normalize Py.prec Py.emax z 0 false.

(** ** Vocabulary of the further properties *)

(** Keys in order of first appearance: a key equal to an earlier one is
    dropped. *)
Definition first_keys (ks : list key) : list key :=
  fold_left (fun acc k =>
               if existsb (fun k' => key_eqb k' k) acc then acc
               else (acc ++ [k])%list) ks [].

(** The points of all the series of a grouping map, series after series. *)
Definition all_points (sd : list (key * series)) : list point :=
  flat_map (fun e => points (snd e)) sd.

(** The two transform tags that parse a number. *)
Definition numeric_tag (tag : option string) : Prop :=
  tag = Some "float" \/ tag = Some "int".

(** A template with no brace in it. *)
Fixpoint brace_free (s : string) : bool :=
  match s with
  | EmptyString => true
  | String c s' =>
      negb (Ascii.eqb c "{") && negb (Ascii.eqb c "}") && brace_free s'
  end.

(** Two results that are both values, or the same exception. *)
Definition same_outcome {A A' : Type} (r : result A) (r' : result A') : Prop :=
  match r, r' with
  | Ok _, Ok _ => True
  | Raise e, Raise e' => e = e'
  | _, _ => False
  end.

(** A schema that parses no number. *)
Definition schema_plain : schema := {|
  schema_group_by := Some ["category"];
  schema_fields :=
    Some [("category", {| source := Some "category"; transform := None |})];
  schema_points :=
    Some {| points_x := Some "x"; points_y := Some "y";
            points_transform := None |};
  schema_id_template := Some "series";
  schema_mappings := None
|}.

(** Grouping by a field that is read as a float. *)
Definition schema_float_key : schema := {|
  schema_group_by := Some ["v"];
  schema_fields :=
    Some [("v", {| source := Some "v"; transform := Some "float" |})];
  schema_points :=
    Some {| points_x := Some "x"; points_y := Some "y";
            points_transform := None |};
  schema_id_template := None;
  schema_mappings := None
|}.

(** Scenario A without its [group_by] section. *)
Definition schema_no_group_by : schema := {|
  schema_group_by := None;
  schema_fields :=
    Some [("category", {| source := Some "category"; transform := None |})];
  schema_points :=
    Some {| points_x := Some "x"; points_y := Some "y";
            points_transform := Some "float" |};
  schema_id_template := None;
  schema_mappings := None
|}.

(** Three rows of one category, two of them with the same x. *)
Definition rows_ties : list raw_row :=
  [ [("category", "A"); ("x", "1"); ("y", "b")];
    [("category", "A"); ("x", "1"); ("y", "a")];
    [("category", "A"); ("x", "0"); ("y", "c")] ].

Section FurtherVocabulary.
Context {B : Builtins}.

(** The text of the line-delimited mode for the documents [ds]. *)
Definition lines_text (ds : list series_json) : string :=
  String.concat EmptyString (map (fun d => json_dumps false d ++ newline) ds).

(** The text of the array mode for the documents [ds]. *)
Definition array_text (ds : list series_json) : string :=
  "[" ++ newline ++ String.concat "," (map (json_dumps true) ds)
  ++ newline ++ "]" ++ newline.

(** The tables of [mappings] whose column is [k] in lower case, in the
    order of the schema. *)
Definition tables_for (ms : Dict.t (Dict.t string)) (k : string)
  : list (Dict.t string) :=
  map snd (filter (fun m => String.eqb (str_lower (fst m)) k) ms).

(** [table.get(v, v)], one table after the other. *)
Definition apply_tables (ts : list (Dict.t string)) (v : string) : string :=
  fold_left (fun v t => get_or (Dict.get t v) v) ts v.

(** The raw value of the last column whose name is [k] in lower case. *)
Definition last_raw (raw : raw_row) (k : string) : option string :=
  option_map snd
    (find (fun kv => String.eqb (str_lower (fst kv)) k) (rev raw)).

(** The value a declared field gets from a normalised row. *)
Definition field_value (row : Dict.t string) (cfg : field_cfg) : result value :=
  src <- of_option (source cfg) (KeyError "source") ;;
  transform_funcs (transform cfg)
                  (get_or (Dict.get row (str_lower src)) EmptyString).
End FurtherVocabulary.

(** * Properties *)

(** ** Dictionaries *)

Section DictFacts.
Context {V : Type}.
Implicit Types (d : Dict.t V) (k : string) (v : V).

Lemma get_set_same d k v : Dict.get (Dict.set d k v) k = Some v.
Proof.
  induction d as [|[k' v'] d IH]; simpl.
  - now rewrite String.eqb_refl.
  - destruct (String.eqb k' k) eqn:E; simpl; rewrite ?E; auto.
Qed.

Lemma get_set_other d k k' v :
  k <> k' -> Dict.get (Dict.set d k v) k' = Dict.get d k'.
Proof.
  intros Hne. induction d as [|[k0 v0] d IH]; simpl.
  - destruct (String.eqb k k') eqn:E; auto.
    apply String.eqb_eq in E. contradiction.
  - destruct (String.eqb k0 k) eqn:E; simpl.
    + apply String.eqb_eq in E. subst k0.
      destruct (String.eqb k k') eqn:E'; auto.
      apply String.eqb_eq in E'. contradiction.
    + now rewrite IH.
Qed.

Lemma get_in d k v : Dict.get d k = Some v -> In (k, v) d.
Proof.
  induction d as [|[k' v'] d IH]; simpl; [discriminate|].
  destruct (String.eqb k' k) eqn:E.
  - apply String.eqb_eq in E. intros [= ->]. subst. now left.
  - auto.
Qed.

Lemma in_get d k v : In (k, v) d -> exists v', Dict.get d k = Some v'.
Proof.
  induction d as [|[k' v'] d IH]; simpl; [tauto|].
  intros [[= -> ->]|Hin].
  - rewrite String.eqb_refl. eauto.
  - destruct (String.eqb k' k); eauto.
Qed.

Lemma in_set d k v k' v' :
  In (k', v') (Dict.set d k v) -> (k' = k /\ v' = v) \/ In (k', v') d.
Proof.
  induction d as [|[k0 v0] d IH]; simpl.
  - intros [[= -> ->]|[]]. auto.
  - destruct (String.eqb k0 k) eqn:E; simpl.
    + apply String.eqb_eq in E. subst k0.
      intros [[= -> ->]|Hin]; auto.
    + intros [Heq|Hin]; auto. destruct (IH Hin); auto.
Qed.

Lemma keys_set_present d k v v0 :
  Dict.get d k = Some v0 -> Dict.keys (Dict.set d k v) = Dict.keys d.
Proof.
  unfold Dict.keys.
  induction d as [|[k' v'] d IH]; simpl; [discriminate|].
  destruct (String.eqb k' k) eqn:E; simpl; auto.
  intros H. now rewrite IH.
Qed.

Lemma set_absent d k v :
  Dict.get d k = None -> Dict.set d k v = (d ++ [(k, v)])%list.
Proof.
  induction d as [|[k' v'] d IH]; simpl; auto.
  destruct (String.eqb k' k); [discriminate|].
  intros H. now rewrite IH.
Qed.

Lemma get_app_absent d d' k :
  Dict.get d k = None -> Dict.get (d ++ d')%list k = Dict.get d' k.
Proof.
  induction d as [|[k' v'] d IH]; simpl; auto.
  destruct (String.eqb k' k); [discriminate|auto].
Qed.

Lemma get_none_not_in d k : Dict.get d k = None <-> ~ In k (Dict.keys d).
Proof.
  unfold Dict.keys.
  induction d as [|[k' v'] d IH]; simpl; [tauto|].
  destruct (String.eqb k' k) eqn:E.
  - apply String.eqb_eq in E. split; [discriminate|]. intros H. exfalso. auto.
  - apply String.eqb_neq in E. rewrite IH. tauto.
Qed.

Lemma is_empty_set d k v : Dict.is_empty (Dict.set d k v) = false.
Proof.
  destruct d as [|[k' v'] d]; simpl; auto.
  now destruct (String.eqb k' k).
Qed.
End DictFacts.

(** ** Row normaliser *)

Section Normaliser.
Context {B : Builtins}.

Lemma mem_set_mono (d : Dict.t string) k k' v :
  Dict.mem d k = true -> Dict.mem (Dict.set d k' v) k = true.
Proof.
  unfold Dict.mem. intros H.
  destruct (string_dec k' k) as [->|Hne].
  - now rewrite get_set_same.
  - now rewrite get_set_other.
Qed.

Lemma lower_strip_fold_in raw : forall acc k v,
  In (k, v) (fold_left (fun d kv => Dict.set d (str_lower (fst kv))
                                             (str_strip (snd kv))) raw acc) ->
  In (k, v) acc \/ exists kv, In kv raw /\ (k, v) = lower_strip_entry kv.
Proof.
  induction raw as [|kv raw IH]; simpl; intros acc k v H; auto.
  apply IH in H. destruct H as [H|(kv' & Hin & Heq)].
  - apply in_set in H. destruct H as [[-> ->]|H]; auto.
    right. exists kv. auto.
  - right. exists kv'. auto.
Qed.

Lemma lower_strip_fold_mem raw : forall acc k,
  Dict.mem acc k = true \/ In k (map str_lower (Dict.keys raw)) ->
  Dict.mem (fold_left (fun d kv => Dict.set d (str_lower (fst kv))
                                            (str_strip (snd kv))) raw acc) k
  = true.
Proof.
  induction raw as [|kv raw IH]; simpl; intros acc k H.
  - destruct H as [H|[]]. exact H.
  - apply IH. destruct H as [H|[H|H]]; auto.
    + left. now apply mem_set_mono.
    + left. subst k. unfold Dict.mem. now rewrite get_set_same.
Qed.

Lemma lower_strip_fold_nodup raw : forall acc,
  NoDup (Dict.keys acc ++ map str_lower (Dict.keys raw))%list ->
  fold_left (fun d kv => Dict.set d (str_lower (fst kv)) (str_strip (snd kv)))
            raw acc
  = (acc ++ map lower_strip_entry raw)%list.
Proof.
  induction raw as [|kv raw IH]; simpl; intros acc Hnd.
  - now rewrite app_nil_r.
  - rewrite set_absent.
    + rewrite IH.
      * now rewrite <- app_assoc.
      * unfold Dict.keys in *. rewrite map_app, <- app_assoc. exact Hnd.
    + apply get_none_not_in. apply NoDup_remove_2 in Hnd.
      intros Hin. apply Hnd. apply in_or_app. now left.
Qed.

Lemma apply_mapping_keys row m :
  Dict.keys (apply_mapping row m) = Dict.keys row.
Proof.
  unfold apply_mapping.
  destruct (Dict.get row (str_lower (fst m))) eqn:E; auto.
  eapply keys_set_present; eauto.
Qed.

Lemma apply_mapping_other row m k :
  k <> str_lower (fst m) -> Dict.get (apply_mapping row m) k = Dict.get row k.
Proof.
  intros Hne. unfold apply_mapping.
  destruct (Dict.get row (str_lower (fst m))) eqn:E; auto.
  apply get_set_other. congruence.
Qed.

Lemma apply_mappings_keys ms : forall row,
  Dict.keys (fold_left apply_mapping ms row) = Dict.keys row.
Proof.
  induction ms as [|m ms IH]; simpl; intros row; auto.
  now rewrite IH, apply_mapping_keys.
Qed.

Lemma apply_mappings_other ms : forall row k,
  ~ In k (map str_lower (Dict.keys ms)) ->
  Dict.get (fold_left apply_mapping ms row) k = Dict.get row k.
Proof.
  induction ms as [|m ms IH]; simpl; intros row k Hk; auto.
  rewrite IH by tauto. apply apply_mapping_other. intros ->. tauto.
Qed.

Lemma apply_mappings_mapped ms : forall row col table v,
  NoDup (map str_lower (Dict.keys ms)) ->
  In (col, table) ms ->
  Dict.get row (str_lower col) = Some v ->
  Dict.get (fold_left apply_mapping ms row) (str_lower col)
  = Some (get_or (Dict.get table v) v).
Proof.
  induction ms as [|m ms IH]; simpl; intros row col table v Hnd Hin Hget.
  - contradiction.
  - inversion Hnd as [|? ? Hnotin Hnd']; subst.
    destruct Hin as [->|Hin].
    + rewrite apply_mappings_other by exact Hnotin.
      unfold apply_mapping. simpl. rewrite Hget. apply get_set_same.
    + apply IH; auto.
      rewrite apply_mapping_other; auto.
      intros Heq. apply Hnotin. rewrite <- Heq.
      apply in_map. change col with (fst (col, table)).
      unfold Dict.keys. now apply in_map.
Qed.

(** C8.  The normaliser is a total function, so it never raises.  Each
    entry of the record it builds first has the lower-cased name and the
    stripped value of a raw column, and every raw column is there under
    its lower-cased name; when no two columns share a lower-cased name the
    record is the raw one, entry by entry.  The mappings then keep the
    keys; a column named in [mappings] (names compared in lower case, one
    table per column) gets the table's text for its stripped value when
    the table has it and keeps the stripped value otherwise; every other
    column is untouched. *)
Theorem normalize_row_spec (mappings : Dict.t (Dict.t string)) (raw : raw_row) :
  NoDup (map str_lower (Dict.keys mappings)) ->
  (forall k v, In (k, v) (lower_strip raw) ->
               exists kv, In kv raw /\ (k, v) = lower_strip_entry kv)
  /\ (forall kv, In kv raw ->
                 Dict.mem (lower_strip raw) (str_lower (fst kv)) = true)
  /\ (NoDup (map str_lower (Dict.keys raw)) ->
      lower_strip raw = map lower_strip_entry raw)
  /\ Dict.keys (normalize_row mappings raw) = Dict.keys (lower_strip raw)
  /\ (forall col table v,
        In (col, table) mappings ->
        Dict.get (lower_strip raw) (str_lower col) = Some v ->
        Dict.get (normalize_row mappings raw) (str_lower col)
        = Some (get_or (Dict.get table v) v))
  /\ (forall k,
        ~ In k (map str_lower (Dict.keys mappings)) ->
        Dict.get (normalize_row mappings raw) k = Dict.get (lower_strip raw) k).
Proof.
  intros Hnd. unfold normalize_row, lower_strip.
  repeat split.
  - intros k v H. apply lower_strip_fold_in in H.
    destruct H as [[]|H]. exact H.
  - intros kv Hin. apply lower_strip_fold_mem. right.
    apply in_map. unfold Dict.keys. now apply in_map.
  - intros Hraw. now rewrite lower_strip_fold_nodup.
  - apply apply_mappings_keys.
  - intros col table v Hin Hget. now apply apply_mappings_mapped.
  - intros k Hk. now apply apply_mappings_other.
Qed.
End Normaliser.

(** Scenario C: the table of column [sex] turns the code [M] into its text
    before any field is derived; a code the table lacks passes through. *)
Example scenario_C :
  let tables := [("Sex", [("M", "Male"); ("F", "Female")])] in
  normalize_row tables [("Name", " Ann "); ("SEX", "M ")]
  = [("name", "Ann"); ("sex", "Male")]
  /\ normalize_row tables [("Name", "Kim"); ("SEX", "X")]
     = [("name", "Kim"); ("sex", "X")].
Proof. split; reflexivity. Qed.

Lemma normalize_row_spec_witness :
  NoDup (map str_lower (Dict.keys [("Sex", [("M", "Male"); ("F", "Female")])]))
  /\ Dict.get (normalize_row [("Sex", [("M", "Male"); ("F", "Female")])]
                             [("Name", " Ann "); ("SEX", "M ")]) "sex"
     = Some "Male".
Proof.
  assert (Hnd : NoDup (map str_lower
                   (Dict.keys [("Sex", [("M", "Male"); ("F", "Female")])]))).
  { simpl. constructor; [simpl; tauto | constructor]. }
  split; [exact Hnd|].
  destruct (normalize_row_spec [("Sex", [("M", "Male"); ("F", "Female")])]
              [("Name", " Ann "); ("SEX", "M ")] Hnd)
    as (_ & _ & _ & _ & Hmap & _).
  apply (Hmap "Sex" [("M", "Male"); ("F", "Female")] "M").
  - simpl. now left.
  - reflexivity.
Defined.

(** ** Equality of grouping keys *)

Lemma xnum_eqb_sym a b : xnum_eqb a b = xnum_eqb b a.
Proof.
  destruct a as [|s|p], b as [|s'|q]; simpl; auto.
  - now destruct s, s'.
  - destruct (Qeq_bool p q) eqn:E1, (Qeq_bool q p) eqn:E2; auto.
    + apply Qeq_bool_iff in E1. symmetry in E1.
      apply Qeq_bool_iff in E1. congruence.
    + apply Qeq_bool_iff in E2. symmetry in E2.
      apply Qeq_bool_iff in E2. congruence.
Qed.

Lemma xnum_eqb_trans a b c :
  xnum_eqb a b = true -> xnum_eqb b c = true -> xnum_eqb a c = true.
Proof.
  destruct a as [|s|p], b as [|s'|q], c as [|s''|r]; simpl; try discriminate.
  - destruct s, s', s''; auto.
  - intros H1 H2. apply Qeq_bool_iff in H1, H2. apply Qeq_bool_iff.
    now rewrite H1.
Qed.

Lemma value_eqb_sym v w : value_eqb v w = value_eqb w v.
Proof.
  destruct v, w; unfold value_eqb, value_xnum;
    auto using String.eqb_sym, xnum_eqb_sym.
Qed.

Lemma value_eqb_trans u v w :
  value_eqb u v = true -> value_eqb v w = true -> value_eqb u w = true.
Proof.
  destruct u, v, w; unfold value_eqb, value_xnum; try discriminate;
    try apply xnum_eqb_trans.
  intros H1 H2. apply String.eqb_eq in H1, H2. subst. apply String.eqb_refl.
Qed.

Lemma key_eqb_sym k1 : forall k2, key_eqb k1 k2 = key_eqb k2 k1.
Proof.
  induction k1 as [|v k1 IH]; destruct k2 as [|w k2]; simpl; auto.
  now rewrite value_eqb_sym, IH.
Qed.

Lemma key_eqb_trans k1 : forall k2 k3,
  key_eqb k1 k2 = true -> key_eqb k2 k3 = true -> key_eqb k1 k3 = true.
Proof.
  induction k1 as [|u k1 IH]; destruct k2 as [|v k2], k3 as [|w k3];
    simpl; try discriminate; auto.
  intros H1 H2. apply andb_true_iff in H1, H2. apply andb_true_iff.
  destruct H1, H2. split; eauto using value_eqb_trans.
Qed.

(** ** Field and point derivation *)

Section Deriver.
Context {B : Builtins}.

Lemma mem_set (V : Type) (d : Dict.t V) k v g :
  Dict.mem (Dict.set d k v) g = String.eqb k g || Dict.mem d g.
Proof.
  unfold Dict.mem. destruct (string_dec k g) as [->|Hne].
  - now rewrite get_set_same, String.eqb_refl.
  - rewrite get_set_other by exact Hne.
    apply String.eqb_neq in Hne. now rewrite Hne.
Qed.

Lemma mem_cons (V : Type) (d : Dict.t V) k v g :
  Dict.mem ((k, v) :: d) g = String.eqb k g || Dict.mem d g.
Proof. unfold Dict.mem. simpl. now destruct (String.eqb k g). Qed.

Lemma map_field_ok row acc kc acc' :
  map_field row acc kc = Ok acc' -> exists v, acc' = Dict.set acc (fst kc) v.
Proof.
  unfold map_field. destruct (source (snd kc)); simpl; [|discriminate].
  destruct (transform_funcs _ _); simpl; [|discriminate].
  intros [= <-]. eauto.
Qed.

Lemma map_fields_fold_mem row fsch : forall acc fs,
  fold_result (map_field row) fsch acc = Ok fs ->
  forall g, Dict.mem fs g = Dict.mem acc g || Dict.mem fsch g.
Proof.
  induction fsch as [|kc fsch IH]; simpl; intros acc fs H g.
  - injection H as <-. now rewrite orb_false_r.
  - destruct (map_field row acc kc) as [acc'|] eqn:E; simpl in H; [|discriminate].
    apply map_field_ok in E. destruct E as [v ->].
    rewrite (IH _ _ H), mem_set. destruct kc as [k0 c0].
    rewrite mem_cons. simpl.
    destruct (String.eqb k0 g), (Dict.mem acc g), (Dict.mem fsch g); reflexivity.
Qed.

Lemma map_fields_fold_empty row fsch : forall acc fs,
  fold_result (map_field row) fsch acc = Ok fs ->
  Dict.is_empty fs = Dict.is_empty acc && Dict.is_empty fsch.
Proof.
  induction fsch as [|kc fsch IH]; simpl; intros acc fs H.
  - injection H as <-. now rewrite andb_true_r.
  - destruct (map_field row acc kc) as [acc'|] eqn:E; simpl in H; [|discriminate].
    apply map_field_ok in E. destruct E as [v ->].
    rewrite (IH _ _ H), is_empty_set. now rewrite andb_false_r.
Qed.

(** The derived fields carry the output names the schema declares, and no
    other. *)
Lemma map_fields_mem fsch row fs :
  map_fields fsch row = Ok fs -> forall g, Dict.mem fs g = Dict.mem fsch g.
Proof.
  intros H g. unfold map_fields in H.
  now rewrite (map_fields_fold_mem _ _ _ H).
Qed.

Lemma map_fields_empty fsch row fs :
  map_fields fsch row = Ok fs -> Dict.is_empty fs = Dict.is_empty fsch.
Proof.
  intros H. unfold map_fields in H.
  now rewrite (map_fields_fold_empty _ _ _ H).
Qed.

Lemma mem_false_get (V : Type) (d : Dict.t V) g :
  Dict.mem d g = false <-> Dict.get d g = None.
Proof. unfold Dict.mem. destruct (Dict.get d g); split; congruence. Qed.

(** The grouping key stops at the first name the fields lack. *)
Lemma grouping_key_missing gb fs :
  (exists g, In g gb /\ Dict.get fs g = None) ->
  exists g', In g' gb /\ Dict.get fs g' = None
             /\ grouping_key gb fs = Raise (KeyError g').
Proof.
  unfold grouping_key.
  induction gb as [|g0 gb IH]; intros (g & Hin & Hnone).
  - destruct Hin.
  - simpl. destruct (Dict.get fs g0) as [v|] eqn:E; simpl.
    + destruct Hin as [->|Hin]; [congruence|].
      destruct IH as (g' & Hin' & Hnone' & Hraise); [eauto|].
      exists g'. rewrite Hraise. simpl. auto.
    + exists g0. auto.
Qed.

Lemma sd_update_miss sd k f :
  existsb (fun e => key_eqb (fst e) k) sd = false ->
  sd_update sd k f = (sd ++ [(k, f default_series)])%list.
Proof.
  induction sd as [|[k' data] sd IH]; simpl; auto.
  intros H. apply orb_false_iff in H. destruct H as [H1 H2].
  now rewrite H1, IH.
Qed.

Lemma sd_update_hit sd k f :
  existsb (fun e => key_eqb (fst e) k) sd = true ->
  (forall data, points (f data) = points data) ->
  map fst (sd_update sd k f) = map fst sd
  /\ map (fun e => points (snd e)) (sd_update sd k f)
     = map (fun e => points (snd e)) sd.
Proof.
  intros H Hf. induction sd as [|[k' data] sd IH]; simpl in *; [discriminate|].
  destruct (key_eqb k' k); simpl.
  - now rewrite Hf.
  - destruct (IH H) as [-> ->]. auto.
Qed.

Lemma init_fields_points fs data : points (init_fields fs data) = points data.
Proof. unfold init_fields. now destruct (Dict.is_empty (fields data)). Qed.

Lemma process_row_unfold sc sd r :
  process_row sc sd r =
  (fs <- row_fields sc r ;;
   k <- grouping_key (group_by sc) fs ;;
   pt <- derive_point (points_schema sc) (normalize_row (mappings sc) r) ;;
   Ok (sd_update sd k (fun data => add_point pt (init_fields fs data)))).
Proof. reflexivity. Qed.

Lemma nonempty_false s : s = EmptyString -> nonempty s = false.
Proof. now intros ->. Qed.

(** C6.  Take a row that has reached the point step: its fields and its
    grouping key are derived, and the points section names its x and y
    columns.  When the x or the y value of the row is empty or missing, the
    row is processed without an exception and adds a point to no series.
    When its key is already in the grouping map, the keys and the points of
    every series are what they were; when its key is new, the one change is
    a new last series, with the fields of this row and no point. *)
Theorem empty_point_is_skipped sc sd r fs k xcol ycol :
  points_x (points_schema sc) = Some xcol ->
  points_y (points_schema sc) = Some ycol ->
  row_fields sc r = Ok fs ->
  grouping_key (group_by sc) fs = Ok k ->
  get_or (Dict.get (normalize_row (mappings sc) r) (str_lower xcol)) EmptyString
  = EmptyString
  \/ get_or (Dict.get (normalize_row (mappings sc) r) (str_lower ycol)) EmptyString
     = EmptyString ->
  exists sd',
    process_row sc sd r = Ok sd'
    /\ (existsb (fun e => key_eqb (fst e) k) sd = true ->
        map fst sd' = map fst sd
        /\ map (fun e => points (snd e)) sd' = map (fun e => points (snd e)) sd)
    /\ (existsb (fun e => key_eqb (fst e) k) sd = false ->
        sd' = (sd ++ [(k, {| points := []; fields := fs |})])%list).
Proof.
  intros Hx Hy Hfs Hk Hempty.
  exists (sd_update sd k (fun data => init_fields fs data)).
  split; [|split].
  - rewrite process_row_unfold, Hfs. simpl. rewrite Hk. simpl.
    unfold derive_point, point_column. rewrite Hx, Hy. simpl.
    destruct Hempty as [He|He]; rewrite (nonempty_false He); simpl;
      rewrite ?andb_false_r; reflexivity.
  - intros Hhit. apply sd_update_hit; auto using init_fields_points.
  - intros Hmiss. now rewrite sd_update_miss.
Qed.
End Deriver.

(** Scenario B: a first row with no y value creates its series, without a
    point. *)
Lemma empty_point_is_skipped_witness :
  exists sd',
    process_row (schema_A None) []
                [("category", "A"); ("x", "1"); ("y", EmptyString)] = Ok sd'
    /\ (existsb (fun e : key * series => key_eqb (fst e) [VStr "A"]) [] = true ->
        map fst sd' = map fst (@nil (key * series))
        /\ map (fun e => points (snd e)) sd'
           = map (fun e : key * series => points (snd e)) [])
    /\ (existsb (fun e : key * series => key_eqb (fst e) [VStr "A"]) [] = false ->
        sd' = ([] ++ [([VStr "A"],
                       {| points := []; fields := [("category", VStr "A")] |})])%list).
Proof.
  apply (@empty_point_is_skipped python (schema_A None) []
           [("category", "A"); ("x", "1"); ("y", EmptyString)]
           [("category", VStr "A")] [VStr "A"] "x" "y").
  - reflexivity.
  - reflexivity.
  - reflexivity.
  - reflexivity.
  - right. reflexivity.
Defined.

(** ** Whole runs that stop in the reading loop *)

Section Aborts.
Context {B : Builtins}.

Lemma generate_json_first_row_raises sc r rows array_output e :
  process_row sc [] r = Raise e ->
  generate_json (r :: rows) sc array_output
  = {| stdout := EmptyString; emitted := []; raised := Some e |}.
Proof.
  intros H. unfold generate_json, read_rows. simpl. now rewrite H.
Qed.

(** C10, as amended.  When [group_by] names a field that [fields] does not
    declare and the fields of the first row derive without an exception,
    the run stops on that row with the [KeyError] of an undeclared
    [group_by] name, raised by the grouping key, and has written nothing. *)
Theorem undeclared_group_field_raises sc r rows array_output g fs :
  In g (group_by sc) ->
  Dict.get (fields_schema sc) g = None ->
  row_fields sc r = Ok fs ->
  exists g',
    In g' (group_by sc)
    /\ Dict.get (fields_schema sc) g' = None
    /\ grouping_key (group_by sc) fs = Raise (KeyError g')
    /\ generate_json (r :: rows) sc array_output
       = {| stdout := EmptyString; emitted := []; raised := Some (KeyError g') |}.
Proof.
  intros Hin Hnone Hfs.
  assert (Hmem : forall n, Dict.get fs n = None <-> Dict.get (fields_schema sc) n = None).
  { intros n. rewrite <- !mem_false_get.
    now rewrite (map_fields_mem _ _ Hfs). }
  destruct (@grouping_key_missing (group_by sc) fs) as (g' & Hin' & Hnone' & Hraise).
  { exists g. split; [exact Hin|]. now apply Hmem. }
  exists g'. repeat split; auto.
  - now apply Hmem.
  - apply generate_json_first_row_raises.
    rewrite process_row_unfold, Hfs. simpl. now rewrite Hraise.
Qed.

(** C4.  Without a [points] section the default is the empty dictionary,
    whose [get] of the x column is [None]: the first row that reaches the
    point step stops the run with an [AttributeError], nothing written. *)
Theorem points_section_absent_raises sc r rows array_output fs k :
  schema_points sc = None ->
  row_fields sc r = Ok fs ->
  grouping_key (group_by sc) fs = Ok k ->
  generate_json (r :: rows) sc array_output
  = {| stdout := EmptyString; emitted := []; raised := Some AttributeError |}.
Proof.
  intros Hps Hfs Hk. apply generate_json_first_row_raises.
  rewrite process_row_unfold, Hfs. simpl. rewrite Hk. simpl.
  unfold points_schema. rewrite Hps. reflexivity.
Qed.
End Aborts.

(** C10 as stated fails: the schema groups by the undeclared [region], the
    input has a row, and the run ends with the [ValueError] of [int] on the
    field [amount], before any grouping key is computed. *)
Lemma undeclared_group_field_counterexample :
  In "region" (group_by schema_undeclared)
  /\ Dict.get (fields_schema schema_undeclared) "region" = None
  /\ rows_unparsable <> []
  /\ raised (generate_json rows_unparsable schema_undeclared false)
     = Some ValueError
  /\ ~ (exists name,
          raised (generate_json rows_unparsable schema_undeclared false)
          = Some (KeyError name)).
Proof.
  split; [simpl; auto|].
  split; [reflexivity|].
  split; [discriminate|].
  split; [reflexivity|].
  intros [name H]. vm_compute in H. discriminate.
Qed.

Lemma undeclared_group_field_raises_witness :
  exists g',
    In g' (group_by schema_undeclared)
    /\ Dict.get (fields_schema schema_undeclared) g' = None
    /\ grouping_key (group_by schema_undeclared) [("amount", VInt 12)]
       = Raise (KeyError g')
    /\ generate_json [[("amount", "12"); ("x", "1"); ("y", "2")]]
                     schema_undeclared false
       = {| stdout := EmptyString; emitted := []; raised := Some (KeyError g') |}.
Proof.
  apply (@undeclared_group_field_raises python schema_undeclared
           [("amount", "12"); ("x", "1"); ("y", "2")] [] false "region"
           [("amount", VInt 12)]).
  - simpl. auto.
  - reflexivity.
  - reflexivity.
Defined.

(** The failing input of C4: one row of scenario A, the schema of scenario
    A without its [points] section. *)
Lemma points_section_absent_raises_witness :
  generate_json [[("category", "A"); ("x", "1"); ("y", "10")]]
                schema_no_points false
  = {| stdout := EmptyString; emitted := []; raised := Some AttributeError |}.
Proof.
  apply (@points_section_absent_raises python schema_no_points
           [("category", "A"); ("x", "1"); ("y", "10")] [] false
           [("category", VStr "A")] [VStr "A"]).
  - reflexivity.
  - reflexivity.
  - reflexivity.
Defined.

(** ** Series emitter *)

Lemma append_nil_r (s : string) : s ++ EmptyString = s.
Proof. induction s as [|c s IH]; simpl; congruence. Qed.

Lemma append_assoc (s1 s2 s3 : string) : (s1 ++ s2) ++ s3 = s1 ++ (s2 ++ s3).
Proof. induction s1 as [|c s1 IH]; simpl; congruence. Qed.

Lemma insert_point_perm p l : Permutation (p :: l) (insert_point p l).
Proof.
  induction l as [|q l IH]; simpl; auto.
  destruct (String.leb (fst p) (fst q)); auto.
  eapply perm_trans; [apply perm_swap|]. now apply perm_skip.
Qed.

Lemma sort_points_perm l : Permutation l (sort_points l).
Proof.
  induction l as [|p l IH]; simpl; auto.
  eapply perm_trans; [|apply insert_point_perm]. now apply perm_skip.
Qed.

Lemma insert_point_hd p q l :
  x_le q p -> HdRel x_le q l -> HdRel x_le q (insert_point p l).
Proof.
  intros Hqp Hhd. destruct l as [|r l]; simpl.
  - now constructor.
  - inversion Hhd; subst.
    destruct (String.leb (fst p) (fst r)); now constructor.
Qed.

Lemma insert_point_sorted p l :
  Sorted x_le l -> Sorted x_le (insert_point p l).
Proof.
  induction l as [|q l IH]; simpl; intros Hs.
  - repeat constructor.
  - inversion Hs as [|? ? Hs' Hhd]; subst.
    destruct (String.leb (fst p) (fst q)) eqn:E.
    + constructor; [exact Hs|]. now constructor.
    + constructor; [now apply IH|].
      apply insert_point_hd; [|exact Hhd].
      unfold x_le. destruct (String.leb_total (fst p) (fst q)); congruence.
Qed.

Lemma sort_points_sorted l : Sorted x_le (sort_points l).
Proof.
  induction l as [|p l IH]; simpl; [constructor|].
  now apply insert_point_sorted.
Qed.

Section EmitterFacts.
Context {B : Builtins}.

Lemma make_series_json_ok tpl data doc :
  make_series_json tpl data = Ok doc ->
  format tpl (fields data) = Ok (series_id doc)
  /\ doc_points doc = sort_points (points data)
  /\ doc_fields doc = fields data.
Proof.
  unfold make_series_json.
  destruct (format tpl (fields data)) as [sid|]; simpl; [|discriminate].
  intros [= <-]. auto.
Qed.

Lemma emit_lines_emitted tpl datas : forall out docs doc,
  In doc (emitted (emit_lines tpl datas out docs)) ->
  In doc docs \/ exists data, In data datas /\ make_series_json tpl data = Ok doc.
Proof.
  induction datas as [|data datas IH]; simpl; intros out docs doc H; auto.
  destruct (make_series_json tpl data) as [d|] eqn:E; simpl in H; auto.
  apply IH in H. destruct H as [H|(data' & Hin & Hm)].
  - apply in_app_or in H. destruct H as [H|[<-|[]]]; eauto.
  - eauto.
Qed.

Lemma emit_array_emitted tpl datas : forall first out docs doc,
  In doc (emitted (emit_array tpl datas first out docs)) ->
  In doc docs \/ exists data, In data datas /\ make_series_json tpl data = Ok doc.
Proof.
  induction datas as [|data datas IH]; simpl; intros first out docs doc H; auto.
  destruct (make_series_json tpl data) as [d|] eqn:E; simpl in H; auto.
  apply IH in H. destruct H as [H|(data' & Hin & Hm)].
  - apply in_app_or in H. destruct H as [H|[<-|[]]]; eauto.
  - eauto.
Qed.

(** A document a run emits is the rendering of a series of the grouping
    map the reading loop ended with. *)
Lemma generate_json_emitted rows sc array_output doc :
  In doc (emitted (generate_json rows sc array_output)) ->
  exists sd k data,
    read_rows sc rows = Ok sd /\ In (k, data) sd
    /\ make_series_json (id_template sc) data = Ok doc.
Proof.
  unfold generate_json.
  destruct (read_rows sc rows) as [sd|]; simpl; [|tauto].
  intros H.
  assert (Hd : exists data, In data (map snd sd)
                            /\ make_series_json (id_template sc) data = Ok doc).
  { destruct array_output.
    - apply emit_array_emitted in H. destruct H as [[]|H]. exact H.
    - apply emit_lines_emitted in H. destruct H as [[]|H]. exact H. }
  destruct Hd as (data & Hin & Hm).
  apply in_map_iff in Hin. destruct Hin as ([k d] & Heq & Hin).
  simpl in Heq. subst d. exists sd, k, data. auto.
Qed.

(** C3.  In every document that a run emits, in either output mode and
    whatever the order of the rows, each point's x string is less than or
    equal to the next one's, in the order of strings by character codes. *)
Theorem emitted_points_sorted rows sc array_output doc :
  In doc (emitted (generate_json rows sc array_output)) ->
  Sorted x_le (doc_points doc).
Proof.
  intros H. apply generate_json_emitted in H.
  destruct H as (sd & k & data & _ & _ & Hm).
  apply make_series_json_ok in Hm. destruct Hm as (_ & -> & _).
  apply sort_points_sorted.
Qed.
End EmitterFacts.

(** Rows that arrive with their x values in decreasing order. *)
Lemma emitted_points_sorted_witness :
  In {| series_id := EmptyString;
        doc_points := [("1", VFloat (float_of_Z 10)); ("2", VFloat (float_of_Z 20))];
        doc_fields := [("category", VStr "A")] |}
     (emitted (generate_json (rev rows_A) (schema_A None) false))
  /\ Sorted x_le [("1", VFloat (float_of_Z 10)); ("2", VFloat (float_of_Z 20))].
Proof.
  assert (Hin : In {| series_id := EmptyString;
                      doc_points := [("1", VFloat (float_of_Z 10));
                                     ("2", VFloat (float_of_Z 20))];
                      doc_fields := [("category", VStr "A")] |}
                   (emitted (generate_json (rev rows_A) (schema_A None) false))).
  { vm_compute. left. reflexivity. }
  split; [exact Hin|].
  exact (@emitted_points_sorted python (rev rows_A) (schema_A None) false _ Hin).
Defined.

(** ** Template rendering *)

Section FormatFacts.
Context {B : Builtins}.
Variable kwargs : Dict.t value.

Lemma fmt_step_out st pre out c :
  fmt_step kwargs st (pre ++ out) c
  = (r <- fmt_step kwargs st out c ;; Ok (fst r, pre ++ snd r)).
Proof.
  unfold fmt_step, field_step.
  destruct st; repeat match goal with
                      | |- context [if ?b then _ else _] => destruct b
                      end; simpl; rewrite ?append_assoc; try reflexivity;
    destruct (get_field kwargs _); simpl; rewrite ?append_assoc; reflexivity.
Qed.

(** Text already written stays in front of what the scanner adds. *)
Lemma format_from_out tpl : forall st pre out,
  format_from kwargs st (pre ++ out) tpl
  = (s <- format_from kwargs st out tpl ;; Ok (pre ++ s)).
Proof.
  induction tpl as [|c tpl IH]; intros st pre out; simpl.
  - now destruct st.
  - rewrite fmt_step_out.
    destruct (fmt_step kwargs st out c) as [[st' out']|]; simpl; auto.
Qed.

(** A prefix that renders on its own leaves the scanner in literal text. *)
Lemma format_from_app pre rest : forall st out s0,
  format_from kwargs st out pre = Ok s0 ->
  format_from kwargs st out (pre ++ rest) = format_from kwargs InText s0 rest.
Proof.
  induction pre as [|c pre IH]; intros st out s0; simpl.
  - destruct st; try discriminate. now intros [= ->].
  - destruct (fmt_step kwargs st out c) as [[st' out']|]; simpl; [|discriminate].
    apply IH.
Qed.

Lemma field_step_plain name out c :
  Ascii.eqb c "{" = false -> Ascii.eqb c "}" = false ->
  is_field_operator c = false ->
  field_step kwargs name out c = Ok (InField (name ++ String c EmptyString), out).
Proof. intros H1 H2 H3. unfold field_step. now rewrite H1, H2, H3. Qed.

Lemma plain_chars_cons c s :
  plain_chars (String c s) = true ->
  Ascii.eqb c "{" = false /\ Ascii.eqb c "}" = false
  /\ is_field_operator c = false /\ plain_chars s = true.
Proof.
  simpl. intros H.
  repeat (apply andb_true_iff in H; destruct H as [H ?]).
  repeat split; auto using negb_true_iff; now apply negb_true_iff.
Qed.

(** Inside the braces, the scanner collects a plain name up to the closing
    brace and then looks it up. *)
Lemma format_from_in_field name rest : forall acc out,
  plain_chars name = true ->
  format_from kwargs (InField acc) out (name ++ "}" ++ rest)
  = (s <- get_field kwargs (acc ++ name) ;;
     format_from kwargs InText (out ++ s) rest).
Proof.
  induction name as [|c name IH]; intros acc out Hp.
  - simpl. unfold field_step. simpl. rewrite append_nil_r.
    now destruct (get_field kwargs acc).
  - apply plain_chars_cons in Hp. destruct Hp as (H1 & H2 & H3 & Hp).
    simpl. rewrite field_step_plain by assumption. simpl.
    rewrite IH by exact Hp. now rewrite append_assoc.
Qed.

Lemma format_from_field name rest out :
  is_name name = true ->
  format_from kwargs InText out ("{" ++ name ++ "}" ++ rest)
  = (v <- of_option (Dict.get kwargs name) (KeyError name) ;;
     format_from kwargs InText (out ++ value_str v) rest).
Proof.
  unfold is_name. intros H.
  apply andb_true_iff in H. destruct H as [H Hp].
  apply andb_true_iff in H. destruct H as [Hne Hd].
  apply negb_true_iff in Hd.
  destruct name as [|c name]; [discriminate|].
  pose proof (plain_chars_cons _ _ Hp) as (H1 & H2 & H3 & Hp').
  change ("{" ++ String c name ++ "}" ++ rest)
    with (String "{" (String c (name ++ "}" ++ rest))).
  cbn [format_from fmt_step bind fst snd]. rewrite Ascii.eqb_refl.
  cbn [bind fst snd fmt_step]. rewrite H1.
  rewrite field_step_plain by assumption.
  cbn [bind fst snd]. rewrite format_from_in_field by exact Hp'.
  cbn [append]. unfold get_field. rewrite Hne, Hd.
  destruct (Dict.get kwargs (String c name)); reflexivity.
Qed.
End FormatFacts.

Section Rendering.
Context {B : Builtins}.

Lemma format_placeholder pre name post s0 kwargs :
  format pre kwargs = Ok s0 ->
  is_name name = true ->
  format (pre ++ "{" ++ name ++ "}" ++ post) kwargs
  = (v <- of_option (Dict.get kwargs name) (KeyError name) ;;
     s <- format post kwargs ;;
     Ok (s0 ++ value_str v ++ s)).
Proof.
  intros Hpre Hname. unfold format in *.
  rewrite (format_from_app _ _ _ _ _ Hpre), format_from_field by exact Hname.
  destruct (Dict.get kwargs name) as [v|]; simpl; [|reflexivity].
  rewrite <- (append_nil_r (s0 ++ value_str v)), format_from_out.
  destruct (format_from kwargs InText EmptyString post); simpl; [|reflexivity].
  now rewrite append_assoc.
Qed.

(** C7.  Take a template with a placeholder [{name}], a plain name, after a
    prefix that renders to [s0].  When the captured fields of a series have
    [name], the series id is [s0], then the text of the field's value, then
    the rendering of what follows the placeholder.  When they lack it, the
    rendering raises [KeyError name], and both output loops stop at this
    series with that exception, keeping what was written before it. *)
Theorem series_id_rendering (tpl pre name post s0 : string) (data : series) :
  tpl = pre ++ "{" ++ name ++ "}" ++ post ->
  format pre (fields data) = Ok s0 ->
  is_name name = true ->
  (forall v,
     Dict.get (fields data) name = Some v ->
     make_series_json tpl data
     = (s <- format post (fields data) ;;
        Ok {| series_id := s0 ++ value_str v ++ s;
              doc_points := sort_points (points data);
              doc_fields := fields data |}))
  /\ (Dict.get (fields data) name = None ->
      make_series_json tpl data = Raise (KeyError name)
      /\ (forall datas out docs,
            emit_lines tpl (data :: datas) out docs
            = {| stdout := out; emitted := docs;
                 raised := Some (KeyError name) |})
      /\ (forall datas first out docs,
            emit_array tpl (data :: datas) first out docs
            = {| stdout := out; emitted := docs;
                 raised := Some (KeyError name) |})).
Proof.
  intros -> Hpre Hname.
  pose proof (@format_placeholder pre name post s0 (fields data) Hpre Hname) as Hfmt.
  split.
  - intros v Hv. unfold make_series_json. rewrite Hfmt, Hv. simpl.
    now destruct (format post (fields data)).
  - intros Hnone.
    assert (Hm : make_series_json (pre ++ "{" ++ name ++ "}" ++ post) data
                 = Raise (KeyError name)).
    { unfold make_series_json. now rewrite Hfmt, Hnone. }
    split; [exact Hm|].
    split; intros; cbn [emit_lines emit_array]; now rewrite Hm.
Qed.

(** C5, as amended.  With no input row the array mode writes an opening
    bracket, a newline, a newline, a closing bracket and one more newline:
    the three lines of [print("[")] and [print("\n]")]. *)
Theorem empty_input_array_output (sc : schema) :
  generate_json [] sc true
  = {| stdout := "[" ++ newline ++ newline ++ "]" ++ newline;
       emitted := []; raised := None |}.
Proof.
  unfold generate_json, read_rows. simpl fold_result. cbn iota.
  simpl map. unfold emit_array. reflexivity.
Qed.
End Rendering.

(** Scenario D. *)
Example scenario_D :
  format "{category}_series" [("category", VStr "A")] = Ok "A_series"
  /\ format "{missing}" [("category", VStr "A")] = Raise (KeyError "missing").
Proof. split; reflexivity. Qed.

Lemma series_id_rendering_witness :
  make_series_json "{category}_series"
                   {| points := []; fields := [("category", VStr "A")] |}
  = Ok {| series_id := "A_series"; doc_points := [];
          doc_fields := [("category", VStr "A")] |}
  /\ make_series_json "id-{missing}"
                      {| points := []; fields := [("category", VStr "A")] |}
     = Raise (KeyError "missing").
Proof.
  split.
  - apply (proj1 (@series_id_rendering python "{category}_series" EmptyString
                    "category" "_series" EmptyString
                    {| points := []; fields := [("category", VStr "A")] |}
                    eq_refl eq_refl eq_refl) (VStr "A") eq_refl).
  - apply (proj2 (@series_id_rendering python "id-{missing}" "id-"
                    "missing" EmptyString "id-"
                    {| points := []; fields := [("category", VStr "A")] |}
                    eq_refl eq_refl eq_refl) eq_refl).
Defined.

(** C5 as stated fails: the stream does not end at the closing bracket. *)
Lemma empty_input_array_output_counterexample :
  stdout (generate_json [] (schema_A None) true)
  <> "[" ++ newline ++ newline ++ "]".
Proof. vm_compute. discriminate. Qed.

(** ** Scenario A *)

(** C1.  The two rows of scenario A, under its schema and any id template
    that renders on the one field [category], give one document; its
    points are [("1", 10.0)] and [("2", 20.0)], in this order, and the run
    ends without an exception, in either output mode. *)
Theorem scenario_A (template : option string) (array_output : bool) (sid : string) :
  format (get_or template EmptyString) [("category", VStr "A")] = Ok sid ->
  emitted (generate_json rows_A (schema_A template) array_output)
  = [ {| series_id := sid;
         doc_points := [("1", VFloat (float_of_Z 10));
                        ("2", VFloat (float_of_Z 20))];
         doc_fields := [("category", VStr "A")] |} ]
  /\ raised (generate_json rows_A (schema_A template) array_output) = None.
Proof.
  intros Hsid. unfold generate_json.
  replace (read_rows (schema_A template) rows_A)
    with (Ok [([VStr "A"],
               {| points := [("1", VFloat (float_of_Z 10));
                             ("2", VFloat (float_of_Z 20))];
                  fields := [("category", VStr "A")] |})])
    by (vm_compute; reflexivity).
  assert (Hm : make_series_json (id_template (schema_A template))
                 {| points := [("1", VFloat (float_of_Z 10));
                               ("2", VFloat (float_of_Z 20))];
                    fields := [("category", VStr "A")] |}
               = Ok {| series_id := sid;
                       doc_points := [("1", VFloat (float_of_Z 10));
                                      ("2", VFloat (float_of_Z 20))];
                       doc_fields := [("category", VStr "A")] |}).
  { unfold make_series_json, id_template. simpl schema_id_template.
    simpl fields. rewrite Hsid. reflexivity. }
  destruct array_output; cbv beta iota zeta;
    cbn [map snd emit_array emit_lines]; rewrite Hm;
    cbn [emit_array emit_lines emitted raised app]; auto.
Qed.

(** Scenario A with no id template in the schema. *)
Lemma scenario_A_witness :
  emitted (generate_json rows_A (schema_A None) false)
  = [ {| series_id := EmptyString;
         doc_points := [("1", VFloat (float_of_Z 10));
                        ("2", VFloat (float_of_Z 20))];
         doc_fields := [("category", VStr "A")] |} ]
  /\ raised (generate_json rows_A (schema_A None) false) = None.
Proof.
  apply (@scenario_A None false EmptyString). reflexivity.
Defined.

(** The y values of scenario A are the floats of value ten and twenty. *)
Example scenario_A_values :
  py_float "10" = Some (float_of_Z 10)
  /\ py_float "20" = Some (float_of_Z 20)
  /\ float_xnum (float_of_Z 10) = XFin (inject_Z 5629499534213120 * Qpower 2 (-49))
  /\ Qeq (inject_Z 5629499534213120 * Qpower 2 (-49)) (inject_Z 10)
  /\ float_repr (float_of_Z 10) = "10.0"
  /\ float_repr (float_of_Z 20) = "20.0".
Proof. repeat split; vm_compute; reflexivity. Qed.

(** ** Grouping aggregator *)

Section Aggregator.
Context {B : Builtins}.
Local Open Scope list_scope.

Lemma process_row_ok sc sd r sd' :
  process_row sc sd r = Ok sd' ->
  exists fs k pt,
    row_fields sc r = Ok fs
    /\ grouping_key (group_by sc) fs = Ok k
    /\ derive_point (points_schema sc) (normalize_row (mappings sc) r) = Ok pt
    /\ sd' = sd_update sd k (fun data => add_point pt (init_fields fs data)).
Proof.
  rewrite process_row_unfold.
  destruct (row_fields sc r) as [fs|] eqn:Hfs; simpl; [|discriminate].
  destruct (grouping_key (group_by sc) fs) as [k|] eqn:Hk; simpl; [|discriminate].
  destruct (derive_point _ _) as [pt|] eqn:Hpt; simpl; [|discriminate].
  intros [= <-]. exists fs, k, pt. auto.
Qed.

(** The two ways [series_dict[key]] goes: the first entry with an equal key,
    or a new last entry. *)
Lemma sd_update_cases sd k f :
  (existsb (fun e => key_eqb (fst e) k) sd = false
   /\ sd_update sd k f = sd ++ [(k, f default_series)])
  \/ (exists sd1 k0 d0 sd2,
        sd = sd1 ++ (k0, d0) :: sd2
        /\ key_eqb k0 k = true
        /\ Forall (fun e => key_eqb (fst e) k = false) sd1
        /\ sd_update sd k f = sd1 ++ (k0, f d0) :: sd2).
Proof.
  induction sd as [|[k' d'] sd IH]; simpl.
  - left. auto.
  - destruct (key_eqb k' k) eqn:E; simpl.
    + right. exists [], k', d', sd. simpl. auto.
    + destruct IH as [[Hm Hu]|(sd1 & k0 & d0 & sd2 & -> & Hk & Hall & Hu)].
      * left. now rewrite Hu.
      * right. exists ((k', d') :: sd1), k0, d0, sd2. simpl.
        rewrite Hu. repeat split; auto.
Qed.

Lemma existsb_false_forall sd k :
  existsb (fun e : key * series => key_eqb (fst e) k) sd = false ->
  Forall (fun e => key_eqb (fst e) k = false) sd.
Proof.
  induction sd as [|e sd IH]; simpl; intros H; constructor;
    apply orb_false_iff in H; tauto.
Qed.

Lemma ordpairs_snoc (A : Type) (R : A -> A -> Prop) l y :
  ForallOrdPairs R l -> Forall (fun x => R x y) l ->
  ForallOrdPairs R (l ++ [y]).
Proof.
  induction 1 as [|x l Hx Hl IH]; simpl; intros Hall.
  - repeat constructor.
  - inversion Hall; subst. constructor; auto.
    apply Forall_app. auto.
Qed.

Lemma ordpairs_after (A : Type) (R : A -> A -> Prop) l1 x l2 :
  ForallOrdPairs R (l1 ++ x :: l2) -> Forall (R x) l2.
Proof.
  induction l1 as [|a l1 IH]; simpl; intros H; inversion H; subst; auto.
Qed.

Lemma points_for_app sc k l1 l2 :
  points_for sc k (l1 ++ l2) = points_for sc k l1 ++ points_for sc k l2.
Proof. unfold points_for. apply flat_map_app. Qed.

Lemma points_for_one sc k r k' :
  row_key sc r = Ok k' ->
  points_for sc k [r] = if key_eqb k k' then row_points sc r else [].
Proof.
  intros H. unfold points_for. simpl. rewrite H, app_nil_r. reflexivity.
Qed.

(** A row with another key leaves an entry as it is. *)
Lemma entry_spec_other sc processed e r k :
  entry_spec sc processed e ->
  row_key sc r = Ok k ->
  key_eqb (fst e) k = false ->
  entry_spec sc (processed ++ [r]) e.
Proof.
  intros (pre & r0 & post & fs & -> & Hfs & Hk & Hfirst & Hf & Hp) Hr Hne.
  exists pre, r0, (post ++ [r]), fs. repeat split; auto.
  - now rewrite <- app_assoc.
  - rewrite points_for_app, (points_for_one _ _ _ Hr), Hne, app_nil_r.
    exact Hp.
Qed.

(** A row with an equal key adds its point and leaves the fields. *)
Lemma entry_spec_same sc processed k0 d0 r fs k pt :
  entry_spec sc processed (k0, d0) ->
  row_fields sc r = Ok fs ->
  grouping_key (group_by sc) fs = Ok k ->
  derive_point (points_schema sc) (normalize_row (mappings sc) r) = Ok pt ->
  key_eqb k0 k = true ->
  entry_spec sc (processed ++ [r]) (k0, add_point pt (init_fields fs d0)).
Proof.
  intros (pre & r0 & post & fs0 & -> & Hfs0 & Hk0 & Hfirst & Hf & Hp)
         Hfs Hk Hpt Heq.
  simpl in *.
  assert (Hr : row_key sc r = Ok k).
  { unfold row_key. rewrite Hfs. exact Hk. }
  assert (Hpts : row_points sc r
                 = match pt with Some p => [p] | None => [] end).
  { unfold row_points. now rewrite Hpt. }
  assert (He : Dict.is_empty fs = Dict.is_empty fs0).
  { unfold row_fields in Hfs0, Hfs.
    now rewrite (map_fields_empty _ _ Hfs), (map_fields_empty _ _ Hfs0). }
  exists pre, r0, (post ++ [r]), fs0. simpl. repeat split; auto.
  - now rewrite <- app_assoc.
  - assert (Hi : fields (init_fields fs d0) = fs0).
    { unfold init_fields.
      destruct (Dict.is_empty (fields d0)) eqn:E; simpl; [|exact Hf].
      rewrite Hf in E. rewrite E in He.
      destruct fs, fs0; simpl in *; congruence. }
    destruct pt; simpl; exact Hi.
  - rewrite points_for_app, (points_for_one _ _ _ Hr), Heq, Hpts, app_assoc.
    rewrite <- Hp. unfold init_fields.
    destruct (Dict.is_empty (fields d0)); destruct pt; simpl;
      rewrite ?app_nil_r; reflexivity.
Qed.
End Aggregator.

Section AggregatorInvariant.
Context {B : Builtins}.
Local Open Scope list_scope.

Lemma aggregated_nil sc : aggregated sc [] [].
Proof.
  split; [constructor|]. split; [constructor|]. intros r' k' [].
Qed.

Lemma row_key_of sc r fs k :
  row_fields sc r = Ok fs -> grouping_key (group_by sc) fs = Ok k ->
  row_key sc r = Ok k.
Proof. intros Hfs Hk. unfold row_key. now rewrite Hfs. Qed.

(** A new key: nothing in the map is equal to it, so no earlier row had it. *)
Lemma aggregated_miss sc processed sd r fs k pt :
  aggregated sc processed sd ->
  row_fields sc r = Ok fs ->
  grouping_key (group_by sc) fs = Ok k ->
  derive_point (points_schema sc) (normalize_row (mappings sc) r) = Ok pt ->
  Forall (fun e => key_eqb (fst e) k = false) sd ->
  aggregated sc (processed ++ [r])
             (sd ++ [(k, add_point pt (init_fields fs default_series))]).
Proof.
  intros (Hdist & Hent & Hrouted) Hfs Hk Hpt Hmiss.
  pose proof (row_key_of _ _ Hfs Hk) as Hr.
  rewrite Forall_forall in Hmiss.
  split; [|split].
  - rewrite map_app. simpl. apply ordpairs_snoc; [exact Hdist|].
    apply Forall_forall. intros k1 Hin.
    apply in_map_iff in Hin. destruct Hin as (e & <- & He). auto.
  - apply Forall_app. split.
    + rewrite Forall_forall in *. intros e He.
      apply entry_spec_other with (k := k); auto.
    + constructor; [|constructor].
      exists processed, r, [], fs. simpl. repeat split; auto.
      * intros r' k' Hin Hk'.
        destruct (Hrouted r' k' Hin Hk') as (k1 & Hin1 & Hor).
        assert (Hk1 : key_eqb k1 k = false).
        { apply in_map_iff in Hin1. destruct Hin1 as (e & <- & He). auto. }
        destruct (key_eqb k k') eqn:E; auto. exfalso.
        rewrite key_eqb_sym in E. destruct Hor as [->|Hor].
        -- congruence.
        -- pose proof (key_eqb_trans _ _ _ Hor E). congruence.
      * now destruct pt.
      * unfold row_points. rewrite Hpt. now destruct pt.
  - intros r' k' Hin Hk'. rewrite map_app.
    apply in_app_or in Hin. destruct Hin as [Hin|[<-|[]]].
    + destruct (Hrouted r' k' Hin Hk') as (k1 & Hin1 & Hor).
      exists k1. split; [apply in_or_app|]; auto.
    + rewrite Hr in Hk'. injection Hk' as <-.
      exists k. split; [apply in_or_app; right; simpl|]; auto.
Qed.

(** A key the map has: the row goes to the one entry with an equal key. *)
Lemma aggregated_hit sc processed sd1 k0 d0 sd2 r fs k pt :
  aggregated sc processed (sd1 ++ (k0, d0) :: sd2) ->
  row_fields sc r = Ok fs ->
  grouping_key (group_by sc) fs = Ok k ->
  derive_point (points_schema sc) (normalize_row (mappings sc) r) = Ok pt ->
  key_eqb k0 k = true ->
  Forall (fun e => key_eqb (fst e) k = false) sd1 ->
  aggregated sc (processed ++ [r])
             (sd1 ++ (k0, add_point pt (init_fields fs d0)) :: sd2).
Proof.
  intros (Hdist & Hent & Hrouted) Hfs Hk Hpt Hk0 Hsd1.
  pose proof (row_key_of _ _ Hfs Hk) as Hr.
  assert (Hkeys : map fst (sd1 ++ (k0, add_point pt (init_fields fs d0)) :: sd2)
                  = map fst (sd1 ++ (k0, d0) :: sd2)).
  { now rewrite !map_app. }
  split; [|split].
  - rewrite Hkeys. exact Hdist.
  - apply Forall_app in Hent. destruct Hent as [He1 He2].
    inversion He2 as [|? ? He0 He2']; subst.
    apply Forall_app. split; [|constructor].
    + rewrite Forall_forall in *. intros e He.
      apply entry_spec_other with (k := k); auto.
    + now apply entry_spec_same with (k := k).
    + rewrite map_app in Hdist. simpl in Hdist.
      apply ordpairs_after in Hdist.
      rewrite Forall_forall in *. intros e He.
      apply entry_spec_other with (k := k); auto.
      destruct (key_eqb (fst e) k) eqn:E; auto. exfalso.
      assert (Hne : key_eqb k0 (fst e) = false).
      { apply Hdist. now apply in_map. }
      rewrite key_eqb_sym in E.
      pose proof (key_eqb_trans _ _ _ Hk0 E). congruence.
  - intros r' k' Hin Hk'. rewrite Hkeys.
    apply in_app_or in Hin. destruct Hin as [Hin|[<-|[]]]; [eauto|].
    rewrite Hr in Hk'. injection Hk' as <-.
    exists k0. split; [|auto].
    rewrite map_app. apply in_or_app. right. simpl. auto.
Qed.

Lemma aggregated_step sc processed sd r sd' :
  aggregated sc processed sd ->
  process_row sc sd r = Ok sd' ->
  aggregated sc (processed ++ [r]) sd'.
Proof.
  intros Hagg Hrow. apply process_row_ok in Hrow.
  destruct Hrow as (fs & k & pt & Hfs & Hk & Hpt & ->).
  destruct (sd_update_cases sd k (fun data => add_point pt (init_fields fs data)))
    as [[Hmiss ->]|(sd1 & k0 & d0 & sd2 & -> & Hk0 & Hsd1 & ->)].
  - apply aggregated_miss; auto using existsb_false_forall.
  - now apply aggregated_hit with (k := k).
Qed.

Lemma aggregated_fold sc rest : forall processed sd sd',
  aggregated sc processed sd ->
  fold_result (process_row sc) rest sd = Ok sd' ->
  aggregated sc (processed ++ rest) sd'.
Proof.
  induction rest as [|r rest IH]; simpl; intros processed sd sd' Hagg H.
  - injection H as <-. now rewrite app_nil_r.
  - destruct (process_row sc sd r) as [sd1|] eqn:E; simpl in H; [|discriminate].
    change (r :: rest) with ([r] ++ rest). rewrite app_assoc.
    eapply IH; [|exact H]. eapply aggregated_step; eauto.
Qed.

(** The invariant holds of the map the reading loop ends with. *)
Lemma read_rows_aggregated sc rows sd :
  read_rows sc rows = Ok sd -> aggregated sc rows sd.
Proof.
  intros H. unfold read_rows in H.
  change rows with ([] ++ rows)%list.
  eapply aggregated_fold; [apply aggregated_nil|exact H].
Qed.

End AggregatorInvariant.


(** ** Stability of the sort *)

Lemma sort_leb_refl (s : string) : String.leb s s = true.
Proof. now destruct (String.leb_total s s). Qed.

(** The sort is stable: points of one x keep the order they came in. *)
Lemma insert_point_stable x p l :
  filter (fun q => String.eqb (fst q) x) (insert_point p l)
  = filter (fun q => String.eqb (fst q) x) (p :: l).
Proof.
  induction l as [|q l IH]; [reflexivity|].
  cbn [insert_point]. destruct (String.leb (fst p) (fst q)) eqn:E; [reflexivity|].
  cbn [filter] in *. rewrite IH.
  destruct (String.eqb (fst p) x) eqn:Ep, (String.eqb (fst q) x) eqn:Eq;
    try reflexivity.
  apply String.eqb_eq in Ep, Eq. rewrite Ep, Eq, sort_leb_refl in E.
  discriminate.
Qed.

Lemma sort_points_stable x l :
  filter (fun q => String.eqb (fst q) x) (sort_points l)
  = filter (fun q => String.eqb (fst q) x) l.
Proof.
  induction l as [|p l IH]; [reflexivity|].
  cbn [sort_points fold_right]. fold (sort_points l).
  rewrite insert_point_stable. cbn [filter]. now rewrite IH.
Qed.

(** ** Two runs on one input *)

Section HashedRunFacts.
Context {B : Builtins}.
Variable env : run_env.




Lemma get_hashed_eq (V : Type) (d : Dict.t V) k :
  get_hashed env d k = Dict.get d k.
Proof.
  induction d as [|[k' v] d IH]; simpl; [reflexivity|].
  destruct (String.eqb k' k) eqn:E.
  - apply String.eqb_eq in E. subst. now rewrite Z.eqb_refl.
  - rewrite andb_false_r. exact IH.
Qed.


End HashedRunFacts.


(** * Further properties *)

(** ** Which rows stop the reading loop, and with what *)

Section ReadingErrors.
Context {B : Builtins}.
Local Open Scope list_scope.

(** Whether a row is accepted does not depend on the rows before it. *)
Lemma process_row_any_map sc sd sd' r :
  match process_row sc sd r with
  | Ok _ => exists s, process_row sc sd' r = Ok s
  | Raise e => process_row sc sd' r = Raise e
  end.
Proof.
  rewrite !process_row_unfold.
  destruct (row_fields sc r) as [fs|]; simpl; auto.
  destruct (grouping_key (group_by sc) fs) as [k|]; simpl; auto.
  destruct (derive_point _ _) as [pt|]; simpl; eauto.
Qed.

Lemma process_row_raise_any sc sd sd' r e :
  process_row sc sd r = Raise e -> process_row sc sd' r = Raise e.
Proof.
  intros H. pose proof (process_row_any_map sc sd sd' r) as H'.
  now rewrite H in H'.
Qed.

Lemma process_row_ok_any sc sd sd' r s :
  process_row sc sd r = Ok s -> exists s', process_row sc sd' r = Ok s'.
Proof.
  intros H. pose proof (process_row_any_map sc sd sd' r) as H'.
  now rewrite H in H'.
Qed.

Lemma fold_rows_raise sc rows : forall sd e,
  fold_result (process_row sc) rows sd = Raise e <->
  exists pre r post,
    rows = pre ++ r :: post
    /\ Forall (fun r' => exists s, process_row sc [] r' = Ok s) pre
    /\ process_row sc [] r = Raise e.
Proof.
  induction rows as [|r rows IH]; intros sd e; simpl.
  - split; [discriminate|]. intros (pre & r & post & H & _).
    destruct pre; discriminate.
  - destruct (process_row sc sd r) as [sd1|e1] eqn:E; simpl.
    + rewrite IH. split.
      * intros (pre & r0 & post & -> & Hpre & Hr0).
        exists (r :: pre), r0, post. repeat split; auto.
        constructor; [|exact Hpre]. eapply process_row_ok_any; eauto.
      * intros (pre & r0 & post & Heq & Hpre & Hr0).
        destruct pre as [|r1 pre]; simpl in Heq; injection Heq as <- ->.
        -- apply (process_row_raise_any _ _ sd) in Hr0. congruence.
        -- inversion Hpre; subst. exists pre, r0, post. auto.
    + split.
      * intros [= ->]. exists [], r, rows. repeat split; auto.
        eapply process_row_raise_any; eauto.
      * intros (pre & r0 & post & Heq & Hpre & Hr0).
        destruct pre as [|r1 pre]; simpl in Heq; injection Heq as <- ->.
        -- apply (process_row_raise_any _ _ sd) in Hr0. congruence.
        -- inversion Hpre as [|? ? [s Hs] ?]; subst.
           apply (process_row_ok_any _ _ sd) in Hs. destruct Hs. congruence.
Qed.

(** X1.  The reading loop raises [e] exactly when some row, taken alone,
    raises [e] and every row before it, taken alone, is accepted; the run
    then writes nothing, in either mode, whatever rows follow. *)
Theorem first_bad_row_stops_the_run sc rows array_output e :
  (read_rows sc rows = Raise e <->
   exists pre r post,
     rows = pre ++ r :: post
     /\ Forall (fun r' => exists s, process_row sc [] r' = Ok s) pre
     /\ process_row sc [] r = Raise e)
  /\ (read_rows sc rows = Raise e ->
      generate_json rows sc array_output
      = {| stdout := EmptyString; emitted := []; raised := Some e |}).
Proof.
  split.
  - unfold read_rows. apply fold_rows_raise.
  - intros H. unfold generate_json. now rewrite H.
Qed.

Lemma transform_funcs_raise tag x e :
  transform_funcs tag x = Raise e -> e = ValueError /\ numeric_tag tag.
Proof.
  unfold transform_funcs, numeric_tag. destruct tag as [t|]; [|discriminate].
  destruct (String.eqb t "float") eqn:Ef.
  - apply String.eqb_eq in Ef. subst t.
    destruct (py_float x); simpl; [discriminate|]. intros [= <-]. auto.
  - destruct (String.eqb t "int") eqn:Ei; [|discriminate].
    apply String.eqb_eq in Ei. subst t.
    destruct (py_int x); simpl; [discriminate|]. intros [= <-]. auto.
Qed.

Lemma map_fields_fold_raise row fsch : forall acc e,
  fold_result (map_field row) fsch acc = Raise e ->
  exists kc,
    In kc fsch
    /\ ((e = KeyError "source" /\ source (snd kc) = None)
        \/ (e = ValueError /\ numeric_tag (transform (snd kc)))).
Proof.
  induction fsch as [|kc fsch IH]; simpl; intros acc e H; [discriminate|].
  destruct (map_field row acc kc) as [acc'|e'] eqn:E; simpl in H.
  - destruct (IH _ _ H) as (kc' & Hin & Hor). exists kc'. auto.
  - injection H as ->. exists kc. split; [now left|].
    unfold map_field in E. destruct (source (snd kc)) as [src|]; simpl in E.
    + destruct (transform_funcs _ _) as [v|e''] eqn:Et; simpl in E;
        [discriminate|]. injection E as ->.
      right. eapply transform_funcs_raise; eauto.
    + injection E as <-. auto.
Qed.

Lemma grouping_key_raise gb fs e :
  grouping_key gb fs = Raise e ->
  exists g, e = KeyError g /\ In g gb /\ Dict.get fs g = None.
Proof.
  unfold grouping_key. induction gb as [|g gb IH]; simpl; [discriminate|].
  destruct (Dict.get fs g) as [v|] eqn:E; simpl.
  - destruct (map_result _ gb) as [k|e'] eqn:Em; simpl; [discriminate|].
    intros [= ->]. destruct (IH eq_refl) as (g' & -> & Hin & Hnone).
    exists g'. auto.
  - intros [= <-]. exists g. auto.
Qed.

Lemma derive_point_raise ps row e :
  derive_point ps row = Raise e ->
  (e = AttributeError /\ (points_x ps = None \/ points_y ps = None))
  \/ (e = ValueError /\ numeric_tag (points_transform ps)).
Proof.
  unfold derive_point, point_column.
  destruct (points_x ps) as [xs|]; simpl; [|intros [= <-]; auto].
  destruct (points_y ps) as [ys|]; simpl; [|intros [= <-]; auto].
  destruct (nonempty _ && nonempty _); [|discriminate].
  destruct (transform_funcs _ _) as [y|e'] eqn:Et; simpl; [discriminate|].
  intros [= ->]. right. eapply transform_funcs_raise; eauto.
Qed.

End ReadingErrors.

(** ** Lines of the CSV file *)

Section ReaderFacts.
Context {B : Builtins}.
Local Open Scope list_scope.

Lemma set_some_map (d : Dict.t string) k v :
  Dict.set (map (fun kv => (fst kv, Some (snd kv))) d) k (Some v)
  = map (fun kv => (fst kv, Some (snd kv))) (Dict.set d k v).
Proof.
  induction d as [|[k' v'] d IH]; simpl; auto.
  destruct (String.eqb k' k); simpl; [auto|now rewrite IH].
Qed.

Lemma zip_some_fold (l : list (string * string)) : forall d : Dict.t string,
  fold_left (fun d kv => Dict.set d (fst kv) (Some (snd kv))) l
            (map (fun kv => (fst kv, Some (snd kv))) d)
  = map (fun kv => (fst kv, Some (snd kv)))
        (fold_left (fun d kv => Dict.set d (fst kv) (snd kv)) l d).
Proof.
  induction l as [|[k v] l IH]; simpl; intros d; auto.
  rewrite set_some_map. apply IH.
Qed.

Lemma zip_some fieldnames record :
  fold_left (fun d kv => Dict.set d (fst kv) (Some (snd kv)))
            (combine fieldnames record) []
  = named (full_row (zip_record fieldnames record)).
Proof. exact (zip_some_fold (combine fieldnames record) []). Qed.

(** A line of the length of the header gives the record with every column
    named. *)
Lemma dict_reader_row_rectangular fieldnames record :
  List.length record = List.length fieldnames ->
  dict_reader_row fieldnames record = full_row (zip_record fieldnames record).
Proof.
  intros H. unfold dict_reader_row.
  rewrite H, Nat.ltb_irrefl, skipn_all. simpl.
  rewrite zip_some. reflexivity.
Qed.

Lemma lower_strip_fold_full (raw : raw_row) : forall acc,
  fold_result
    (fun d kv =>
       v <- of_option (snd kv) AttributeError ;;
       Ok (Dict.set d (str_lower (fst kv)) (str_strip v)))
    (map (fun kv => (fst kv, Some (snd kv))) raw) acc
  = Ok (fold_left
          (fun d kv => Dict.set d (str_lower (fst kv)) (str_strip (snd kv)))
          raw acc).
Proof. induction raw as [|[k v] raw IH]; simpl; intros acc; auto. Qed.

Lemma lower_strip_reader_full raw :
  lower_strip_reader (full_row raw) = Ok (lower_strip raw).
Proof.
  unfold lower_strip_reader, full_row, lower_strip. simpl.
  now rewrite lower_strip_fold_full.
Qed.

(** On such a record the loop body is [process_row] on the dictionary from
    name to text. *)
Lemma process_reader_row_full sc sd raw :
  process_reader_row sc sd (full_row raw) = process_row sc sd raw.
Proof.
  unfold process_reader_row. rewrite lower_strip_reader_full. reflexivity.
Qed.

Lemma lower_strip_fold_none (d : Dict.t (option string)) k : forall acc,
  In (k, None) d ->
  fold_result
    (fun d kv =>
       v <- of_option (snd kv) AttributeError ;;
       Ok (Dict.set d (str_lower (fst kv)) (str_strip v)))
    d acc
  = Raise AttributeError.
Proof.
  induction d as [|[k' [v'|]] d IH]; simpl; intros acc Hin; auto.
  - tauto.
  - destruct Hin as [Heq|Hin]; [discriminate|]. now apply IH.
Qed.

Lemma lower_strip_fold_raise (d : Dict.t (option string)) : forall acc e,
  fold_result
    (fun d kv =>
       v <- of_option (snd kv) AttributeError ;;
       Ok (Dict.set d (str_lower (fst kv)) (str_strip v)))
    d acc
  = Raise e ->
  e = AttributeError /\ exists k, In (k, None) d.
Proof.
  induction d as [|[k' [v'|]] d IH]; simpl; intros acc e H.
  - discriminate.
  - destruct (IH _ _ H) as (-> & k & Hin). eauto.
  - injection H as <-. eauto.
Qed.

Lemma set_none_fold_get ks : forall (d : Dict.t (option string)) k,
  Dict.get d k = Some None ->
  Dict.get (fold_left (fun d k => Dict.set d k None) ks d) k = Some None.
Proof.
  induction ks as [|k0 ks IH]; simpl; intros d k H; auto.
  apply IH. destruct (string_dec k0 k) as [->|Hne].
  - apply get_set_same.
  - now rewrite get_set_other.
Qed.

(** A short line leaves [None] under a name. *)
Lemma short_line_has_none fieldnames record :
  (List.length record < List.length fieldnames)%nat ->
  exists k, In (k, None) (named (dict_reader_row fieldnames record)).
Proof.
  intros H. unfold dict_reader_row.
  destruct (Nat.ltb_spec (List.length fieldnames) (List.length record));
    [lia|]. simpl.
  destruct (skipn (List.length record) fieldnames) as [|k ks] eqn:E.
  - apply (f_equal (@List.length string)) in E.
    rewrite List.length_skipn in E. simpl in E. lia.
  - exists k. simpl. apply get_in. apply set_none_fold_get.
    apply get_set_same.
Qed.

(** A line that has not the length of the header stops at the row
    normaliser. *)
Lemma lower_strip_reader_ragged fieldnames record :
  List.length record <> List.length fieldnames ->
  lower_strip_reader (dict_reader_row fieldnames record)
  = Raise AttributeError.
Proof.
  intros Hne.
  destruct (Nat.lt_ge_cases (List.length fieldnames) (List.length record))
    as [Hlong|Hshort].
  - unfold dict_reader_row.
    destruct (Nat.ltb_spec (List.length fieldnames) (List.length record));
      [|lia].
    unfold lower_strip_reader. simpl. rewrite zip_some. unfold full_row.
    simpl. now rewrite lower_strip_fold_full.
  - destruct (@short_line_has_none fieldnames record) as (k & Hin); [lia|].
    unfold lower_strip_reader.
    now rewrite (lower_strip_fold_none _ k _ Hin).
Qed.

(** A line of the length of the header passes the row normaliser. *)
Lemma lower_strip_reader_raise fieldnames record e :
  lower_strip_reader (dict_reader_row fieldnames record) = Raise e ->
  e = AttributeError /\ List.length record <> List.length fieldnames.
Proof.
  intros H.
  destruct (Nat.eq_dec (List.length record) (List.length fieldnames))
    as [Heq|Hne].
  - rewrite (dict_reader_row_rectangular _ _ Heq) in H.
    rewrite lower_strip_reader_full in H. discriminate.
  - rewrite (lower_strip_reader_ragged _ _ Hne) in H.
    injection H as <-. auto.
Qed.

Lemma process_normalized_raise sc sd row e :
  process_normalized sc sd row = Raise e ->
  (e = KeyError "source"
   /\ exists kc, In kc (fields_schema sc) /\ source (snd kc) = None)
  \/ (e = ValueError
      /\ ((exists kc, In kc (fields_schema sc)
                      /\ numeric_tag (transform (snd kc)))
          \/ numeric_tag (points_transform (points_schema sc))))
  \/ (exists g, e = KeyError g /\ In g (group_by sc)
                /\ Dict.get (fields_schema sc) g = None)
  \/ (e = AttributeError
      /\ (points_x (points_schema sc) = None
          \/ points_y (points_schema sc) = None)).
Proof.
  unfold process_normalized.
  destruct (map_fields (fields_schema sc) row) as [fs|e1] eqn:Hfs; simpl.
  - destruct (grouping_key (group_by sc) fs) as [k|e2] eqn:Hk; simpl.
    + destruct (derive_point _ _) as [pt|e3] eqn:Hpt; simpl; [discriminate|].
      intros [= ->]. apply derive_point_raise in Hpt.
      destruct Hpt as [[-> H]|[-> H]]; auto.
    + intros [= ->]. apply grouping_key_raise in Hk.
      destruct Hk as (g & -> & Hin & Hnone).
      right. right. left. exists g. repeat split; auto.
      apply mem_false_get. rewrite <- (map_fields_mem _ _ Hfs).
      now apply mem_false_get.
  - intros [= ->]. unfold map_fields in Hfs.
    apply map_fields_fold_raise in Hfs.
    destruct Hfs as (kc & Hin & [[-> H]|[-> H]]).
    + left. eauto.
    + right. left. eauto.
Qed.

Lemma process_normalized_plain sc sd row :
  (forall kc, In kc (fields_schema sc) ->
              source (snd kc) <> None /\ ~ numeric_tag (transform (snd kc))) ->
  ~ numeric_tag (points_transform (points_schema sc)) ->
  (forall g, In g (group_by sc) -> Dict.get (fields_schema sc) g <> None) ->
  points_x (points_schema sc) <> None ->
  points_y (points_schema sc) <> None ->
  exists sd', process_normalized sc sd row = Ok sd'.
Proof.
  intros Hf Hp Hg Hx Hy.
  destruct (process_normalized sc sd row) as [sd'|e] eqn:E; [eauto|exfalso].
  apply process_normalized_raise in E.
  destruct E as [(_ & kc & Hin & H)|[(_ & [(kc & Hin & H)|H])
                |[(g & _ & Hin & H)|(_ & [H|H])]]]; try tauto.
  - destruct (Hf kc Hin). tauto.
  - destruct (Hf kc Hin). tauto.
  - exact (Hg g Hin H).
Qed.

Lemma dict_reader_cons fieldnames record records :
  dict_reader fieldnames (record :: records)
  = if is_blank record then dict_reader fieldnames records
    else dict_reader_row fieldnames record :: dict_reader fieldnames records.
Proof. unfold dict_reader. simpl. now destruct record. Qed.

Lemma not_ragged_cases fieldnames record :
  ~ ragged fieldnames record ->
  record = [] \/ List.length record = List.length fieldnames.
Proof.
  unfold ragged. intros H. destruct record as [|c record]; auto.
  right. destruct (Nat.eq_dec (List.length (c :: record))
                              (List.length fieldnames)); auto.
  exfalso. apply H. split; [discriminate|assumption].
Qed.

(** On a file whose lines are all blank or of the length of the header,
    the reading loop is the loop over the dictionaries from name to
    text. *)
Lemma read_reader_rows_rectangular sc fieldnames records : forall sd,
  Forall (fun record => ~ ragged fieldnames record) records ->
  fold_result (process_reader_row sc) (dict_reader fieldnames records) sd
  = fold_result (process_row sc)
      (map (zip_record fieldnames)
           (filter (fun record => negb (is_blank record)) records)) sd.
Proof.
  induction records as [|record records IH]; intros sd Hall; auto.
  inversion Hall as [|? ? Hrec Hrest]; subst.
  rewrite dict_reader_cons.
  destruct (not_ragged_cases Hrec) as [->|Hlen]; simpl; [now apply IH|].
  destruct record as [|c record]; simpl; [now apply IH|].
  rewrite (dict_reader_row_rectangular _ _ Hlen), process_reader_row_full.
  destruct (process_row sc sd _); simpl; auto.
Qed.

(** X2.  What a line of the file, as [csv.reader] splits it, can raise
    in the loop body, and why: [KeyError("source")]
    when a declared field has no source; [ValueError] when a field or the
    points section has the tag [float] or [int]; [KeyError(g)] for a
    [group_by] name [g] that [fields] does not declare; [AttributeError]
    when the points section lacks its x or its y column name, or when the
    line has fewer or more values than the header has names.  Nothing
    else. *)
Theorem reader_row_raises_only sc sd fieldnames record e :
  process_reader_row sc sd (dict_reader_row fieldnames record) = Raise e ->
  (e = KeyError "source"
   /\ exists kc, In kc (fields_schema sc) /\ source (snd kc) = None)
  \/ (e = ValueError
      /\ ((exists kc, In kc (fields_schema sc)
                      /\ numeric_tag (transform (snd kc)))
          \/ numeric_tag (points_transform (points_schema sc))))
  \/ (exists g, e = KeyError g /\ In g (group_by sc)
                /\ Dict.get (fields_schema sc) g = None)
  \/ (e = AttributeError
      /\ (points_x (points_schema sc) = None
          \/ points_y (points_schema sc) = None
          \/ List.length record <> List.length fieldnames)).
Proof.
  unfold process_reader_row.
  destruct (lower_strip_reader _) as [base|e0] eqn:Hbase; simpl.
  - intros H. apply process_normalized_raise in H.
    destruct H as [H|[H|[H|(-> & H)]]]; auto.
    right. right. right. split; [reflexivity|tauto].
  - intros [= ->]. apply lower_strip_reader_raise in Hbase.
    destruct Hbase as (-> & Hne). auto 10.
Qed.

(** X3.  Take a schema whose fields all have a source, that has no [float]
    or [int] tag, that groups by declared fields only and whose points
    section names its x and y columns.  On a file whose lines, as
    [csv.reader] splits them, are all blank or of the length of the header
    the loop body raises nothing, whatever the lines hold; on a file with
    a line that is not blank and of another length the reading loop raises
    [AttributeError]. *)
Theorem plain_schema_stops_only_on_ragged_lines sc fieldnames records :
  (forall kc, In kc (fields_schema sc) ->
              source (snd kc) <> None /\ ~ numeric_tag (transform (snd kc))) ->
  ~ numeric_tag (points_transform (points_schema sc)) ->
  (forall g, In g (group_by sc) -> Dict.get (fields_schema sc) g <> None) ->
  points_x (points_schema sc) <> None ->
  points_y (points_schema sc) <> None ->
  (Forall (fun record => ~ ragged fieldnames record) records ->
   exists sd, read_reader_rows sc (dict_reader fieldnames records) = Ok sd)
  /\ (Exists (ragged fieldnames) records ->
      read_reader_rows sc (dict_reader fieldnames records)
      = Raise AttributeError).
Proof.
  intros Hf Hp Hg Hx Hy. unfold read_reader_rows. generalize (@nil (key * series)).
  induction records as [|record records IH]; intros sd.
  - split; [simpl; eauto|]. intros H. inversion H.
  - rewrite dict_reader_cons.
    destruct record as [|c record]; simpl.
    + destruct (IH sd) as [IHok IHbad]. split.
      * intros H. inversion H; subst. auto.
      * intros H. inversion H as [? ? [Hne _]|]; subst; [now elim Hne|auto].
    + unfold process_reader_row at 1. unfold process_reader_row at 2.
      destruct (Nat.eq_dec (List.length (c :: record))
                           (List.length fieldnames)) as [Heq|Hne].
      * rewrite (dict_reader_row_rectangular _ _ Heq).
        rewrite lower_strip_reader_full. simpl.
        destruct (@process_normalized_plain sc sd
                    (fold_left apply_mapping (mappings sc)
                       (lower_strip (zip_record fieldnames (c :: record))))
                    Hf Hp Hg Hx Hy) as [sd' ->]. simpl.
        destruct (IH sd') as [IHok IHbad]. split.
        -- intros H. inversion H; subst. auto.
        -- intros H. inversion H as [? ? [_ Hne]|]; subst;
             [now elim Hne|auto].
      * rewrite (lower_strip_reader_ragged _ _ Hne). simpl. split; auto.
        intros H. inversion H as [|? ? Hrec _]; subst.
        exfalso. apply Hrec. split; [discriminate|assumption].
Qed.

(** X17.  On a file whose lines are all blank or of the length of the
    header, the run is [generate_json] on the dictionaries from name to
    text of its lines that are not blank, in either mode. *)
Theorem rectangular_file_runs_on_its_records
        sc fieldnames records array_output :
  Forall (fun record => ~ ragged fieldnames record) records ->
  generate_json_csv fieldnames records sc array_output
  = generate_json
      (map (zip_record fieldnames)
           (filter (fun record => negb (is_blank record)) records))
      sc array_output.
Proof.
  intros H. unfold generate_json_csv, generate_json, read_reader_rows, read_rows.
  now rewrite (read_reader_rows_rectangular sc [] H).
Qed.
End ReaderFacts.

Lemma reader_row_raises_only_witness :
  (AttributeError = KeyError "source"
   /\ exists kc, In kc (fields_schema schema_plain)
                 /\ source (snd kc) = None)
  \/ (AttributeError = ValueError
      /\ ((exists kc, In kc (fields_schema schema_plain)
                      /\ numeric_tag (transform (snd kc)))
          \/ numeric_tag (points_transform (points_schema schema_plain))))
  \/ (exists g, AttributeError = KeyError g /\ In g (group_by schema_plain)
                /\ Dict.get (fields_schema schema_plain) g = None)
  \/ (AttributeError = AttributeError
      /\ (points_x (points_schema schema_plain) = None
          \/ points_y (points_schema schema_plain) = None
          \/ List.length ["A"; "1"] <> List.length ["category"; "x"; "y"])).
Proof.
  apply (@reader_row_raises_only python schema_plain []
           ["category"; "x"; "y"] ["A"; "1"] AttributeError).
  reflexivity.
Defined.

Lemma plain_schema_stops_only_on_ragged_lines_witness :
  (Forall (fun record => ~ ragged ["category"; "x"; "y"] record)
          [["A"; "1"; "10"]; []; ["A"; "2"]] ->
   exists sd,
     read_reader_rows schema_plain
       (dict_reader ["category"; "x"; "y"] [["A"; "1"; "10"]; []; ["A"; "2"]])
     = Ok sd)
  /\ (Exists (ragged ["category"; "x"; "y"])
             [["A"; "1"; "10"]; []; ["A"; "2"]] ->
      read_reader_rows schema_plain
        (dict_reader ["category"; "x"; "y"] [["A"; "1"; "10"]; []; ["A"; "2"]])
      = Raise AttributeError).
Proof.
  apply (@plain_schema_stops_only_on_ragged_lines python schema_plain
           ["category"; "x"; "y"] [["A"; "1"; "10"]; []; ["A"; "2"]]).
  - intros kc [<-|[]]. split; [discriminate|].
    intros [H|H]; discriminate.
  - intros [H|H]; discriminate.
  - intros g [<-|[]]. discriminate.
  - discriminate.
  - discriminate.
Defined.

Lemma rectangular_file_runs_on_its_records_witness :
  generate_json_csv ["category"; "x"; "y"]
    [["A"; "1"; "10"]; []; ["A"; "2"; "20"]] schema_plain false
  = generate_json
      (map (zip_record ["category"; "x"; "y"])
           (filter (fun record => negb (is_blank record))
                   [["A"; "1"; "10"]; []; ["A"; "2"; "20"]]))
      schema_plain false.
Proof.
  apply (@rectangular_file_runs_on_its_records python schema_plain
           ["category"; "x"; "y"] [["A"; "1"; "10"]; []; ["A"; "2"; "20"]]
           false).
  repeat constructor; intros [Hne Hlen]; (now elim Hne) || (now elim Hlen).
Defined.

(** ** What a run writes *)

Section OutputShape.
Context {B : Builtins}.

Lemma concat_empty_cons (a : string) (l : list string) :
  String.concat EmptyString (a :: l) = a ++ String.concat EmptyString l.
Proof. destruct l; simpl; [now rewrite append_nil_r|reflexivity]. Qed.

(** The line loop when every series renders. *)
Lemma emit_lines_all tpl datas : forall ds out docs,
  map_result (make_series_json tpl) datas = Ok ds ->
  emit_lines tpl datas out docs
  = {| stdout := out ++ lines_text ds; emitted := (docs ++ ds)%list;
       raised := None |}.
Proof.
  unfold lines_text.
  induction datas as [|data datas IH]; simpl; intros ds out docs H.
  - injection H as <-. simpl. now rewrite append_nil_r, app_nil_r.
  - destruct (make_series_json tpl data) as [d|] eqn:E; simpl in H;
      [|discriminate].
    destruct (map_result _ datas) as [ds'|] eqn:E'; simpl in H; [|discriminate].
    injection H as <-. rewrite (IH ds') by reflexivity.
    cbn [map]. rewrite concat_empty_cons, <- app_assoc.
    now rewrite !append_assoc.
Qed.

(** The separators of the array loop, after the first item. *)
Lemma emit_array_rest tpl datas : forall ds out docs,
  map_result (make_series_json tpl) datas = Ok ds ->
  emit_array tpl datas false out docs
  = {| stdout := out
                 ++ String.concat EmptyString
                      (map (fun d => "," ++ json_dumps true d) ds)
                 ++ newline ++ "]" ++ newline;
       emitted := (docs ++ ds)%list; raised := None |}.
Proof.
  induction datas as [|data datas IH]; simpl; intros ds out docs H.
  - injection H as <-. simpl. now rewrite app_nil_r.
  - destruct (make_series_json tpl data) as [d|] eqn:E; simpl in H;
      [|discriminate].
    destruct (map_result _ datas) as [ds'|] eqn:E'; simpl in H; [|discriminate].
    injection H as <-. rewrite (IH ds') by reflexivity.
    cbn [map]. rewrite concat_empty_cons, <- app_assoc.
    now rewrite !append_assoc.
Qed.

Lemma concat_comma_cons (a : string) (l : list string) :
  String.concat "," (a :: l)
  = a ++ String.concat EmptyString (map (fun s => "," ++ s) l).
Proof.
  revert a. induction l as [|b l IH]; intros a.
  - simpl. now rewrite append_nil_r.
  - change (String.concat "," (a :: b :: l))
      with (a ++ "," ++ String.concat "," (b :: l)).
    rewrite IH. cbn [map]. rewrite concat_empty_cons.
    now rewrite !append_assoc.
Qed.

Lemma emit_array_all tpl datas ds :
  map_result (make_series_json tpl) datas = Ok ds ->
  emit_array tpl datas true ("[" ++ newline) []
  = {| stdout := array_text ds; emitted := ds; raised := None |}.
Proof.
  unfold array_text. destruct datas as [|data datas]; intros H.
  - simpl in H. injection H as <-. reflexivity.
  - cbn [map_result] in H.
    destruct (make_series_json tpl data) as [d|] eqn:E; cbn [bind] in H;
      [|discriminate].
    destruct (map_result _ datas) as [ds'|] eqn:E'; cbn [bind] in H;
      [|discriminate].
    injection H as <-. cbn [emit_array]. rewrite E.
    rewrite (emit_array_rest _ _ _ _ E').
    cbn [map app]. rewrite concat_comma_cons, map_map.
    now rewrite !append_assoc.
Qed.

Lemma emit_lines_raised tpl datas : forall out docs e,
  raised (emit_lines tpl datas out docs) = Some e ->
  map_result (make_series_json tpl) datas = Raise e.
Proof.
  induction datas as [|data datas IH]; simpl; intros out docs e H;
    [discriminate|].
  destruct (make_series_json tpl data) as [d|e'] eqn:E; simpl in *.
  - now rewrite (IH _ _ _ H).
  - congruence.
Qed.

Lemma emit_array_raised tpl datas : forall first out docs e,
  raised (emit_array tpl datas first out docs) = Some e ->
  map_result (make_series_json tpl) datas = Raise e.
Proof.
  induction datas as [|data datas IH]; simpl; intros first out docs e H;
    [discriminate|].
  destruct (make_series_json tpl data) as [d|e'] eqn:E; simpl in *.
  - now rewrite (IH _ _ _ _ H).
  - congruence.
Qed.
Lemma emit_lines_fails tpl datas : forall out docs e,
  map_result (make_series_json tpl) datas = Raise e ->
  raised (emit_lines tpl datas out docs) = Some e.
Proof.
  induction datas as [|data datas IH]; simpl; intros out docs e H;
    [discriminate|].
  destruct (make_series_json tpl data) as [d|e'] eqn:E; simpl in *.
  - destruct (map_result _ datas) eqn:E'; simpl in H; [discriminate|].
    injection H as ->. now apply IH.
  - congruence.
Qed.

Lemma emit_array_fails tpl datas : forall first out docs e,
  map_result (make_series_json tpl) datas = Raise e ->
  raised (emit_array tpl datas first out docs) = Some e.
Proof.
  induction datas as [|data datas IH]; simpl; intros first out docs e H;
    [discriminate|].
  destruct (make_series_json tpl data) as [d|e'] eqn:E; simpl in *.
  - destruct (map_result _ datas) eqn:E'; simpl in H; [discriminate|].
    injection H as ->. now apply IH.
  - congruence.
Qed.
End OutputShape.

(** ** Rendering fails for all series or for none *)

Section UniformRendering.
Context {B : Builtins}.
Variables fs1 fs2 : Dict.t value.
Hypothesis same_names : forall n, Dict.mem fs1 n = Dict.mem fs2 n.

Lemma get_field_uniform name :
  same_outcome (get_field fs1 name) (get_field fs2 name).
Proof.
  unfold get_field.
  destruct (nonempty name); [|reflexivity].
  destruct (all_digits name).
  - destruct (String.length name <=? 18)%nat; reflexivity.
  - specialize (same_names name). unfold Dict.mem in same_names.
    destruct (Dict.get fs1 name), (Dict.get fs2 name); simpl;
      try reflexivity; discriminate.
Qed.

(** One character takes both scanners to the same state, or stops both
    with the same exception. *)
Lemma fmt_step_uniform st o1 o2 c :
  match fmt_step fs1 st o1 c, fmt_step fs2 st o2 c with
  | Ok r1, Ok r2 => fst r1 = fst r2
  | Raise e1, Raise e2 => e1 = e2
  | _, _ => False
  end.
Proof.
  assert (Hf : forall name,
             match field_step fs1 name o1 c, field_step fs2 name o2 c with
             | Ok r1, Ok r2 => fst r1 = fst r2
             | Raise e1, Raise e2 => e1 = e2
             | _, _ => False
             end).
  { intros name. unfold field_step.
    destruct (Ascii.eqb c "}").
    - pose proof (get_field_uniform name) as H. unfold same_outcome in H.
      destruct (get_field fs1 name), (get_field fs2 name); simpl; auto.
    - destruct (Ascii.eqb c "{"); [reflexivity|].
      destruct (is_field_operator c); reflexivity. }
  destruct st; cbn [fmt_step].
  - destruct (Ascii.eqb c "{"); [reflexivity|].
    destruct (Ascii.eqb c "}"); reflexivity.
  - destruct (Ascii.eqb c "{"); [reflexivity|apply Hf].
  - destruct (Ascii.eqb c "}"); reflexivity.
  - apply Hf.
Qed.

Lemma format_from_uniform tpl : forall st o1 o2,
  same_outcome (format_from fs1 st o1 tpl) (format_from fs2 st o2 tpl).
Proof.
  induction tpl as [|c tpl IH]; intros st o1 o2; simpl.
  - destruct st; reflexivity.
  - pose proof (fmt_step_uniform st o1 o2 c) as H.
    destruct (fmt_step fs1 st o1 c) as [[s1 o1']|e1],
             (fmt_step fs2 st o2 c) as [[s2 o2']|e2]; simpl in *;
      try contradiction; [subst s2; apply IH|exact H].
Qed.
End UniformRendering.

Section NoPartialOutput.
Context {B : Builtins}.

Lemma make_series_json_uniform tpl d1 d2 :
  (forall n, Dict.mem (fields d1) n = Dict.mem (fields d2) n) ->
  same_outcome (make_series_json tpl d1) (make_series_json tpl d2).
Proof.
  intros H. unfold make_series_json, format.
  pose proof (@format_from_uniform B (fields d1) (fields d2) H tpl InText
                EmptyString EmptyString) as Hu.
  unfold same_outcome in *.
  destruct (format_from (fields d1) _ _ _), (format_from (fields d2) _ _ _);
    simpl; auto.
Qed.

(** Among series with the same field names, a rendering that fails fails
    at the first series. *)
Lemma map_result_first_fails tpl (names : Dict.t field_cfg) d datas e :
  (forall d', In d' (d :: datas) ->
              forall n, Dict.mem (fields d') n = Dict.mem names n) ->
  map_result (make_series_json tpl) (d :: datas) = Raise e ->
  make_series_json tpl d = Raise e.
Proof.
  intros Hnames. revert e.
  assert (Hall : forall ds e,
             (forall d', In d' ds -> In d' (d :: datas)) ->
             map_result (make_series_json tpl) ds = Raise e ->
             make_series_json tpl d = Raise e).
  { induction ds as [|d0 ds IH]; simpl; intros e Hsub H; [discriminate|].
    destruct (make_series_json tpl d0) as [doc|e0] eqn:E; simpl in H.
    - destruct (map_result _ ds) eqn:E'; simpl in H; [discriminate|].
      injection H as ->. apply IH; [|reflexivity].
      intros d' Hd'. apply Hsub. now right.
    - injection H as ->.
      assert (Hu : same_outcome (make_series_json tpl d)
                                (make_series_json tpl d0)).
      { apply make_series_json_uniform. intros n.
        rewrite (Hnames d) by (now left).
        rewrite (Hnames d0) by (apply Hsub; now left). reflexivity. }
      rewrite E in Hu. unfold same_outcome in Hu.
      destruct (make_series_json tpl d); [contradiction|congruence]. }
  intros e H. apply (Hall (d :: datas)); auto.
Qed.

(** Every series of the grouping map has the field names of the schema. *)
Lemma aggregated_field_names sc rows sd :
  read_rows sc rows = Ok sd ->
  forall d, In d (map snd sd) ->
            forall n, Dict.mem (fields d) n = Dict.mem (fields_schema sc) n.
Proof.
  intros H d Hin n. apply read_rows_aggregated in H.
  destruct H as (_ & Hent & _). rewrite Forall_forall in Hent.
  apply in_map_iff in Hin. destruct Hin as (e & <- & Hin).
  destruct (Hent e Hin) as (pre & r & post & fs & _ & Hfs & _ & _ & Hf & _).
  rewrite Hf. unfold row_fields in Hfs. apply (map_fields_mem _ _ Hfs).
Qed.

(** X4.  A run that ends with one of the exceptions of the embedding (so
    not at a conversion, a format specification, an attribute or an index of
    the template, which the embedding does not follow) has written no
    document.  On an exception of the reading loop nothing at all is
    written; a template of plain placeholders that fails fails on the first
    series, so the output is empty in line mode and is the opening bracket
    and its newline in array mode. *)
Theorem no_partial_output rows sc array_output e :
  raised (generate_json rows sc array_output) = Some e ->
  e <> NotModelled ->
  emitted (generate_json rows sc array_output) = []
  /\ stdout (generate_json rows sc array_output)
     = match read_rows sc rows with
       | Ok _ => if array_output then "[" ++ newline else EmptyString
       | Raise _ => EmptyString
       end.
Proof.
  unfold generate_json.
  destruct (read_rows sc rows) as [sd|e'] eqn:Hread; [|simpl; auto].
  cbv zeta. intros H _.
  assert (Hm : map_result (make_series_json (id_template sc)) (map snd sd)
               = Raise e).
  { destruct array_output.
    - eapply emit_array_raised; eauto.
    - eapply emit_lines_raised; eauto. }
  destruct (map snd sd) as [|d datas] eqn:Hd; [discriminate|].
  assert (H1 : make_series_json (id_template sc) d = Raise e).
  { eapply map_result_first_fails; [|exact Hm].
    intros d' Hin. apply (aggregated_field_names _ _ Hread).
    now rewrite Hd. }
  destruct array_output; cbn [emit_array emit_lines]; rewrite H1; auto.
Qed.

(** X5.  A run that ends without an exception has written one document per
    series of the grouping map, in its order: in line mode each document's
    JSON text and a newline; in array mode an opening bracket and a newline,
    the indented JSON texts with a comma and nothing else between two of
    them, a newline, the closing bracket and a newline. *)
Theorem completed_run_output rows sc array_output :
  raised (generate_json rows sc array_output) = None ->
  exists sd,
    read_rows sc rows = Ok sd
    /\ map_result (make_series_json (id_template sc)) (map snd sd)
       = Ok (emitted (generate_json rows sc array_output))
    /\ stdout (generate_json rows sc array_output)
       = if array_output
         then array_text (emitted (generate_json rows sc array_output))
         else lines_text (emitted (generate_json rows sc array_output)).
Proof.
  unfold generate_json.
  destruct (read_rows sc rows) as [sd|e'] eqn:Hread; [|discriminate].
  cbv zeta. intros H. exists sd. split; [reflexivity|].
  destruct (map_result (make_series_json (id_template sc)) (map snd sd))
    as [ds|e] eqn:Hm.
  - destruct array_output.
    + rewrite (emit_array_all _ _ Hm). auto.
    + rewrite (emit_lines_all _ _ EmptyString [] Hm). auto.
  - exfalso. destruct array_output.
    + rewrite (emit_array_fails _ _ _ _ _ Hm) in H. discriminate.
    + rewrite (emit_lines_fails _ _ _ _ Hm) in H. discriminate.
Qed.
End NoPartialOutput.

(** A template that names a field no series has: the array is opened and
    no document follows. *)
Lemma no_partial_output_witness :
  emitted (generate_json rows_A (schema_A (Some "{missing}")) true) = []
  /\ stdout (generate_json rows_A (schema_A (Some "{missing}")) true)
     = match read_rows (schema_A (Some "{missing}")) rows_A with
       | Ok _ => "[" ++ newline
       | Raise _ => EmptyString
       end.
Proof.
  apply (@no_partial_output python rows_A (schema_A (Some "{missing}")) true
           (KeyError "missing")).
  - reflexivity.
  - discriminate.
Defined.

Lemma completed_run_output_witness :
  exists sd,
    read_rows schema_labels rows_labels = Ok sd
    /\ map_result (make_series_json (id_template schema_labels)) (map snd sd)
       = Ok (emitted (generate_json rows_labels schema_labels true))
    /\ stdout (generate_json rows_labels schema_labels true)
       = array_text (emitted (generate_json rows_labels schema_labels true)).
Proof.
  apply (@completed_run_output python rows_labels schema_labels true).
  reflexivity.
Defined.

(** ** Series and points of the grouping map *)

Section GroupingFacts.
Context {B : Builtins}.
Local Open Scope list_scope.

Lemma sd_update_keys sd k f :
  map fst (sd_update sd k f)
  = if existsb (fun k' => key_eqb k' k) (map fst sd) then map fst sd
    else map fst sd ++ [k].
Proof.
  induction sd as [|[k' d] sd IH]; simpl; [reflexivity|].
  destruct (key_eqb k' k); simpl; [reflexivity|].
  rewrite IH. now destruct (existsb _ (map fst sd)).
Qed.

Lemma fold_rows_keys sc rows : forall sd sd',
  fold_result (process_row sc) rows sd = Ok sd' ->
  exists ks,
    map_result (row_key sc) rows = Ok ks
    /\ map fst sd'
       = fold_left (fun acc k =>
                      if existsb (fun k' => key_eqb k' k) acc then acc
                      else acc ++ [k]) ks (map fst sd).
Proof.
  induction rows as [|r rows IH]; simpl; intros sd sd' H.
  - injection H as <-. exists []. auto.
  - destruct (process_row sc sd r) as [sd1|] eqn:E; simpl in H; [|discriminate].
    apply process_row_ok in E.
    destruct E as (fs & k & pt & Hfs & Hk & _ & ->).
    destruct (IH _ _ H) as (ks & Hks & Hkeys).
    exists (k :: ks). rewrite (row_key_of _ _ Hfs Hk), Hks. simpl.
    split; [reflexivity|]. now rewrite Hkeys, sd_update_keys.
Qed.

(** X6.  The grouping map has one series per distinct key, in the order in
    which the keys first appear in the input: its keys are the keys of the
    rows, each one dropped when an earlier row has an equal key.  A run that
    ends without an exception emits that many documents. *)
Theorem series_follow_first_appearance sc rows sd array_output :
  read_rows sc rows = Ok sd ->
  exists ks,
    map_result (row_key sc) rows = Ok ks
    /\ map fst sd = first_keys ks
    /\ (raised (generate_json rows sc array_output) = None ->
        List.length (emitted (generate_json rows sc array_output))
        = List.length (first_keys ks)).
Proof.
  intros H. unfold read_rows in H.
  destruct (fold_rows_keys _ _ _ H) as (ks & Hks & Hkeys).
  change (map fst sd = first_keys ks) in Hkeys.
  exists ks. split; [exact Hks|]. split; [exact Hkeys|].
  intros Hr. rewrite <- Hkeys.
  unfold generate_json in *. unfold read_rows in *. rewrite H in *.
  cbv zeta in *.
  destruct (map_result (make_series_json (id_template sc)) (map snd sd))
    as [ds|e] eqn:Hm.
  - assert (Hlen : List.length ds = List.length sd).
    { clear Hr. rewrite <- (List.length_map snd sd). revert ds Hm.
      generalize (map snd sd). induction l as [|d l IH]; simpl; intros ds Hm.
      - injection Hm as <-. reflexivity.
      - destruct (make_series_json _ d); simpl in Hm; [|discriminate].
        destruct (map_result _ l) eqn:E; simpl in Hm; [|discriminate].
        injection Hm as <-. simpl. now rewrite (IH _ eq_refl). }
    rewrite List.length_map.
    destruct array_output.
    + now rewrite (emit_array_all _ _ Hm).
    + now rewrite (emit_lines_all _ _ EmptyString [] Hm).
  - exfalso. destruct array_output.
    + rewrite (emit_array_fails _ _ _ _ _ Hm) in Hr. discriminate.
    + rewrite (emit_lines_fails _ _ _ _ Hm) in Hr. discriminate.
Qed.

Lemma all_points_app sd1 sd2 :
  all_points (sd1 ++ sd2) = all_points sd1 ++ all_points sd2.
Proof. unfold all_points. apply flat_map_app. Qed.

Lemma all_points_update sd k fs pt :
  Permutation
    (all_points (sd_update sd k (fun d => add_point pt (init_fields fs d))))
    (all_points sd ++ match pt with Some p => [p] | None => [] end).
Proof.
  unfold all_points.
  induction sd as [|[k' d] sd IH]; cbn [sd_update].
  - simpl. rewrite app_nil_r. destruct pt; simpl; apply Permutation_refl.
  - destruct (key_eqb k' k); cbn [flat_map snd].
    + replace (points (add_point pt (init_fields fs d)))
        with (points d ++ match pt with Some p => [p] | None => [] end).
      * rewrite <- !app_assoc. apply Permutation_app_head.
        apply Permutation_app_comm.
      * unfold init_fields.
        destruct (Dict.is_empty (fields d)), pt; simpl;
          rewrite ?app_nil_r; reflexivity.
    + rewrite <- app_assoc. now apply Permutation_app_head.
Qed.

Lemma fold_rows_points sc rows : forall sd sd',
  fold_result (process_row sc) rows sd = Ok sd' ->
  Permutation (all_points sd') (all_points sd ++ flat_map (row_points sc) rows).
Proof.
  induction rows as [|r rows IH]; simpl; intros sd sd' H.
  - injection H as <-. now rewrite app_nil_r.
  - destruct (process_row sc sd r) as [sd1|] eqn:E; simpl in H; [|discriminate].
    apply process_row_ok in E.
    destruct E as (fs & k & pt & _ & _ & Hpt & ->).
    eapply perm_trans; [apply (IH _ _ H)|].
    rewrite app_assoc. apply Permutation_app_tail.
    unfold row_points. rewrite Hpt. apply all_points_update.
Qed.

(** X7.  No point is lost, made up or doubled by the grouping: the points
    of all the series together are the points of the rows, one for each row
    with a non-empty x and y, up to their order; and the documents of a run
    that ends without an exception hold these same points. *)
Theorem points_are_conserved sc rows sd array_output :
  read_rows sc rows = Ok sd ->
  Permutation (all_points sd) (flat_map (row_points sc) rows)
  /\ (raised (generate_json rows sc array_output) = None ->
      Permutation (flat_map doc_points
                            (emitted (generate_json rows sc array_output)))
                  (flat_map (row_points sc) rows)).
Proof.
  intros H.
  assert (Hp : Permutation (all_points sd) (flat_map (row_points sc) rows)).
  { unfold read_rows in H. apply (fold_rows_points _ _ _ H). }
  split; [exact Hp|]. intros Hr.
  eapply perm_trans; [|exact Hp].
  unfold generate_json in *. rewrite H in *. cbv zeta in *.
  destruct (map_result (make_series_json (id_template sc)) (map snd sd))
    as [ds|e] eqn:Hm.
  - assert (Hds : Permutation (flat_map doc_points ds) (all_points sd)).
    { clear Hr Hp H. unfold all_points. revert ds Hm.
      induction sd as [|[k d] sd IH]; simpl; intros ds Hm.
      - injection Hm as <-. constructor.
      - destruct (make_series_json _ d) as [doc|] eqn:E; simpl in Hm;
          [|discriminate].
        destruct (map_result _ (map snd sd)) eqn:E'; simpl in Hm;
          [|discriminate].
        injection Hm as <-. simpl.
        apply make_series_json_ok in E. destruct E as (_ & -> & _).
        apply Permutation_app; [|now apply IH].
        apply Permutation_sym, sort_points_perm. }
    destruct array_output.
    + now rewrite (emit_array_all _ _ Hm).
    + now rewrite (emit_lines_all _ _ EmptyString [] Hm).
  - exfalso. destruct array_output.
    + rewrite (emit_array_fails _ _ _ _ _ Hm) in Hr. discriminate.
    + rewrite (emit_lines_fails _ _ _ _ Hm) in Hr. discriminate.
Qed.
End GroupingFacts.

Lemma series_follow_first_appearance_witness :
  exists ks,
    map_result (row_key schema_labels) rows_labels = Ok ks
    /\ map fst [([VStr "A"],
                 {| points := [("2", VInt 5); ("1", VInt 7)];
                    fields := [("category", VStr "A");
                               ("label", VStr "first")] |})]
       = first_keys ks
    /\ (raised (generate_json rows_labels schema_labels false) = None ->
        List.length (emitted (generate_json rows_labels schema_labels false))
        = List.length (first_keys ks)).
Proof.
  apply (@series_follow_first_appearance python schema_labels rows_labels).
  reflexivity.
Defined.

Lemma points_are_conserved_witness :
  Permutation
    (all_points [([VStr "A"],
                  {| points := [("2", VInt 5); ("1", VInt 7)];
                     fields := [("category", VStr "A");
                                ("label", VStr "first")] |})])
    (flat_map (row_points schema_labels) rows_labels)
  /\ (raised (generate_json rows_labels schema_labels true) = None ->
      Permutation
        (flat_map doc_points
                  (emitted (generate_json rows_labels schema_labels true)))
        (flat_map (row_points schema_labels) rows_labels)).
Proof.
  apply (@points_are_conserved python schema_labels rows_labels).
  reflexivity.
Defined.

Section GroupingEdges.
Context {B : Builtins}.
Local Open Scope list_scope.

(** X8.  Points with the same x string come out in the order of their
    rows: in every emitted document, the points of any one x are the points
    of that x of the rows of the series, first row first. *)
Theorem equal_x_keep_row_order rows sc array_output doc :
  In doc (emitted (generate_json rows sc array_output)) ->
  exists pre r post k,
    rows = pre ++ r :: post
    /\ row_key sc r = Ok k
    /\ forall x,
         filter (fun q => String.eqb (fst q) x) (doc_points doc)
         = filter (fun q => String.eqb (fst q) x)
                  (row_points sc r ++ points_for sc k post).
Proof.
  intros H. apply generate_json_emitted in H.
  destruct H as (sd & k & data & Hread & Hin & Hm).
  apply make_series_json_ok in Hm. destruct Hm as (_ & Hp & _).
  apply read_rows_aggregated in Hread. destruct Hread as (_ & Hent & _).
  rewrite Forall_forall in Hent.
  destruct (Hent _ Hin) as (pre & r & post & fs & -> & Hfs & Hk & _ & _ & Hpd).
  simpl in *. exists pre, r, post, k.
  split; [reflexivity|]. split; [now apply row_key_of with (fs := fs)|].
  intros x. now rewrite Hp, Hpd, sort_points_stable.
Qed.

Lemma value_eqb_nan v : value_eqb v (VFloat S754_nan) = false.
Proof.
  destruct v as [s|z|f]; unfold value_eqb, value_xnum; simpl; auto.
  now destruct (float_xnum f).
Qed.

Lemma key_eqb_nan k : forall k',
  In (VFloat S754_nan) k -> key_eqb k' k = false.
Proof.
  induction k as [|v k IH]; intros k' Hin; [destruct Hin|].
  destruct k' as [|v' k']; simpl; [reflexivity|].
  destruct Hin as [->|Hin].
  - now rewrite value_eqb_nan.
  - rewrite (IH k' Hin). apply andb_false_r.
Qed.

(** X9.  A row whose grouping key holds a float [nan] never joins a
    series: whatever the grouping map holds, even the series of an earlier
    row with the same text, the row starts a new last series, with its own
    fields and its own point. *)
Theorem nan_key_starts_a_series sc sd r sd' fs k :
  process_row sc sd r = Ok sd' ->
  row_fields sc r = Ok fs ->
  grouping_key (group_by sc) fs = Ok k ->
  In (VFloat S754_nan) k ->
  sd' = sd ++ [(k, {| points := row_points sc r; fields := fs |})].
Proof.
  intros Hrow Hfs Hk Hnan. apply process_row_ok in Hrow.
  destruct Hrow as (fs' & k' & pt & Hfs' & Hk' & Hpt & ->).
  rewrite Hfs in Hfs'. injection Hfs' as <-.
  rewrite Hk in Hk'. injection Hk' as <-.
  rewrite sd_update_miss.
  - unfold row_points. rewrite Hpt. now destruct pt.
  - clear -Hnan. induction sd as [|[k0 d0] sd IH]; simpl; [reflexivity|].
    now rewrite (key_eqb_nan k k0 Hnan), IH.
Qed.

Lemma fold_rows_no_group_by sc rows : forall d0 sd,
  group_by sc = [] ->
  fold_result (process_row sc) rows [([], d0)] = Ok sd ->
  exists data,
    sd = [([], data)]
    /\ points data = points d0 ++ flat_map (row_points sc) rows.
Proof.
  induction rows as [|r rows IH]; simpl; intros d0 sd Hg H.
  - injection H as <-. exists d0. now rewrite app_nil_r.
  - destruct (process_row sc [([], d0)] r) as [sd1|] eqn:E; simpl in H;
      [|discriminate].
    apply process_row_ok in E.
    destruct E as (fs & k & pt & Hfs & Hk & Hpt & ->).
    rewrite Hg in Hk. simpl in Hk. injection Hk as <-. simpl in H.
    destruct (IH _ _ Hg H) as (data & -> & Hp).
    exists data. split; [reflexivity|]. rewrite Hp.
    unfold row_points. rewrite Hpt, app_assoc. f_equal.
    unfold init_fields. destruct (Dict.is_empty (fields d0)), pt; simpl;
      rewrite ?app_nil_r; reflexivity.
Qed.

(** X10.  Without a [group_by] (absent or empty) every row has the empty
    key: an input with a row gives exactly one series, and its points are
    the points of all the rows in the order of the rows. *)
Theorem no_group_by_one_series sc r rows sd :
  group_by sc = [] ->
  read_rows sc (r :: rows) = Ok sd ->
  exists data,
    sd = [([], data)]
    /\ points data = flat_map (row_points sc) (r :: rows)
    /\ row_fields sc r = Ok (fields data).
Proof.
  intros Hg H0. pose proof H0 as H. unfold read_rows in H. simpl in H.
  destruct (process_row sc [] r) as [sd1|] eqn:E; simpl in H; [|discriminate].
  apply process_row_ok in E.
  destruct E as (fs & k & pt & Hfs & Hk & Hpt & ->).
  rewrite Hg in Hk. simpl in Hk. injection Hk as <-. simpl in H.
  destruct (@fold_rows_no_group_by sc rows _ sd Hg H) as (data & -> & Hp).
  exists data. split; [reflexivity|]. split.
  - rewrite Hp. simpl. unfold row_points at 2. rewrite Hpt.
    now destruct pt.
  - apply read_rows_aggregated in H0. destruct H0 as (_ & Hent & _).
    inversion Hent as [|? ? He _]; subst.
    destruct He as (pre & r0 & post & fs0 & Heq & Hfs0 & _ & Hfirst & Hf & _).
    simpl in *. destruct pre as [|r1 pre].
    + simpl in Heq. injection Heq as <- <-. now rewrite Hf.
    + simpl in Heq. injection Heq as <- ->. exfalso.
      assert (Hk1 : row_key sc r = Ok []).
      { unfold row_key. rewrite Hfs. simpl. now rewrite Hg. }
      specialize (Hfirst r [] (or_introl eq_refl) Hk1). discriminate.
Qed.
End GroupingEdges.

Lemma equal_x_keep_row_order_witness :
  In {| series_id := "series";
        doc_points := [("0", VStr "c"); ("1", VStr "b"); ("1", VStr "a")];
        doc_fields := [("category", VStr "A")] |}
     (emitted (generate_json rows_ties schema_plain false))
  /\ exists pre r post k,
       rows_ties = (pre ++ r :: post)%list
       /\ row_key schema_plain r = Ok k
       /\ forall x,
            filter (fun q => String.eqb (fst q) x)
                   [("0", VStr "c"); ("1", VStr "b"); ("1", VStr "a")]
            = filter (fun q => String.eqb (fst q) x)
                     (row_points schema_plain r
                      ++ points_for schema_plain k post)%list.
Proof.
  assert (Hin : In {| series_id := "series";
                      doc_points := [("0", VStr "c"); ("1", VStr "b");
                                     ("1", VStr "a")];
                      doc_fields := [("category", VStr "A")] |}
                   (emitted (generate_json rows_ties schema_plain false))).
  { vm_compute. left. reflexivity. }
  split; [exact Hin|].
  exact (@equal_x_keep_row_order python rows_ties schema_plain false _ Hin).
Defined.

(** A second row with the text [nan] does not join the series of the
    first. *)
Lemma nan_key_starts_a_series_witness :
  [([VFloat S754_nan],
    {| points := [("1", VStr "2")]; fields := [("v", VFloat S754_nan)] |});
   ([VFloat S754_nan],
    {| points := [("3", VStr "4")]; fields := [("v", VFloat S754_nan)] |})]
  = ([([VFloat S754_nan],
       {| points := [("1", VStr "2")]; fields := [("v", VFloat S754_nan)] |})]
     ++ [([VFloat S754_nan],
          {| points := row_points schema_float_key
                                  [("v", "nan"); ("x", "3"); ("y", "4")];
             fields := [("v", VFloat S754_nan)] |})])%list.
Proof.
  apply (@nan_key_starts_a_series python schema_float_key
           [([VFloat S754_nan],
             {| points := [("1", VStr "2")];
                fields := [("v", VFloat S754_nan)] |})]
           [("v", "nan"); ("x", "3"); ("y", "4")]).
  - reflexivity.
  - reflexivity.
  - reflexivity.
  - left. reflexivity.
Defined.

Lemma no_group_by_one_series_witness :
  exists data,
    [(@nil value,
      {| points := [("1", VFloat (float_of_Z 10)); ("2", VFloat (float_of_Z 20))];
         fields := [("category", VStr "A")] |})]
    = [([], data)]
    /\ points data = flat_map (row_points schema_no_group_by) rows_A
    /\ row_fields schema_no_group_by
                  [("category", "A"); ("x", "1"); ("y", "10")]
       = Ok (fields data).
Proof.
  apply (@no_group_by_one_series python schema_no_group_by
           [("category", "A"); ("x", "1"); ("y", "10")]
           [[("category", "A"); ("x", "2"); ("y", "20")]]).
  - reflexivity.
  - vm_compute. reflexivity.
Defined.

(** ** The normaliser, column by column *)

Section NormaliserLookup.
Context {B : Builtins}.
Local Open Scope list_scope.

Lemma get_set (V : Type) (d : Dict.t V) k v g :
  Dict.get (Dict.set d k v) g
  = if String.eqb k g then Some v else Dict.get d g.
Proof.
  destruct (String.eqb k g) eqn:E.
  - apply String.eqb_eq in E. subst g. apply get_set_same.
  - apply String.eqb_neq in E. now apply get_set_other.
Qed.

Lemma find_last (A : Type) (p : A -> bool) l a :
  find p (l ++ [a])
  = match find p l with
    | Some b => Some b
    | None => if p a then Some a else None
    end.
Proof.
  induction l as [|b l IH]; simpl; [reflexivity|].
  now destruct (p b).
Qed.

Lemma lower_strip_fold_get raw : forall acc k,
  Dict.get (fold_left (fun d kv => Dict.set d (str_lower (fst kv))
                                            (str_strip (snd kv))) raw acc) k
  = match last_raw raw k with
    | Some v => Some (str_strip v)
    | None => Dict.get acc k
    end.
Proof.
  unfold last_raw.
  induction raw as [|kv raw IH]; intros acc k; simpl; [reflexivity|].
  rewrite IH, find_last.
  destruct (find _ (rev raw)) as [kv'|]; simpl; [reflexivity|].
  rewrite get_set. now destruct (String.eqb (str_lower (fst kv)) k).
Qed.

(** X11.  When several columns of a record have the same name in lower
    case, the normalised record has that name once, with the stripped value
    of the last of them; a name no column has is absent. *)
Theorem last_column_wins raw k :
  Dict.get (lower_strip raw) k = option_map str_strip (last_raw raw k).
Proof.
  unfold lower_strip. rewrite lower_strip_fold_get.
  now destruct (last_raw raw k).
Qed.

Lemma apply_mapping_get row m k :
  Dict.get (apply_mapping row m) k
  = if String.eqb (str_lower (fst m)) k
    then option_map (fun v => get_or (Dict.get (snd m) v) v) (Dict.get row k)
    else Dict.get row k.
Proof.
  unfold apply_mapping.
  destruct (String.eqb (str_lower (fst m)) k) eqn:E.
  - apply String.eqb_eq in E. rewrite E.
    destruct (Dict.get row k) as [v|] eqn:Hv; simpl.
    + apply get_set_same.
    + exact Hv.
  - destruct (Dict.get row (str_lower (fst m))); [|reflexivity].
    rewrite get_set. now rewrite E.
Qed.

(** X12.  The mapping tables never add a column and never raise.  The
    value of a column after them is its stripped value taken through every
    table whose column name equals the column's in lower case, in the order
    of the schema, each table applied to the result of the one before and
    leaving a text it does not list as it is. *)
Theorem mapping_tables_chain ms raw k :
  Dict.get (normalize_row ms raw) k
  = option_map (apply_tables (tables_for ms k)) (Dict.get (lower_strip raw) k).
Proof.
  unfold normalize_row. generalize (lower_strip raw).
  induction ms as [|m ms IH]; intros row; simpl.
  - now destruct (Dict.get row k).
  - rewrite IH, apply_mapping_get. unfold tables_for. simpl.
    destruct (String.eqb (str_lower (fst m)) k); simpl; [|reflexivity].
    now destruct (Dict.get row k).
Qed.

Lemma lower_strip_entries raw : forall acc,
  fold_left (fun d kv => Dict.set d (str_lower (fst kv)) (str_strip (snd kv)))
            raw acc
  = fold_left (fun d e => Dict.set d (fst e) (snd e))
              (map lower_strip_entry raw) acc.
Proof.
  induction raw as [|kv raw IH]; intros acc; simpl; [reflexivity|apply IH].
Qed.

Lemma process_row_same_entries sc sd r1 r2 :
  map lower_strip_entry r1 = map lower_strip_entry r2 ->
  process_row sc sd r1 = process_row sc sd r2.
Proof.
  intros H. unfold process_row, normalize_row, lower_strip.
  now rewrite !lower_strip_entries, H.
Qed.

(** X13.  The output depends on the column names only up to the case of
    their letters and on the values only up to the white space around them:
    two inputs whose records agree, column by column, on the lower-cased
    name and the stripped value give the same run. *)
Theorem case_and_padding_do_not_matter sc rows1 rows2 array_output :
  Forall2 (fun r1 r2 => map lower_strip_entry r1 = map lower_strip_entry r2)
          rows1 rows2 ->
  generate_json rows1 sc array_output = generate_json rows2 sc array_output.
Proof.
  intros H. unfold generate_json, read_rows.
  assert (Hf : forall sd, fold_result (process_row sc) rows1 sd
                          = fold_result (process_row sc) rows2 sd).
  { induction H as [|r1 r2 l1 l2 Hr _ IH]; intros sd; simpl; [reflexivity|].
    rewrite (process_row_same_entries sc sd _ _ Hr).
    destruct (process_row sc sd r2); simpl; auto. }
  now rewrite Hf.
Qed.
End NormaliserLookup.

Lemma case_and_padding_do_not_matter_witness :
  generate_json [[("Category", " A "); ("X", "1"); ("Y", "10 ")]]
                (schema_A None) false
  = generate_json [[("category", "A"); ("x", "1"); ("y", "10")]]
                  (schema_A None) false.
Proof.
  apply (@case_and_padding_do_not_matter python (schema_A None)).
  constructor; [reflexivity|constructor].
Defined.

(** ** The derived fields, field by field *)

Section FieldShape.
Context {B : Builtins}.
Local Open Scope list_scope.

Lemma map_field_value row acc kc acc' :
  map_field row acc kc = Ok acc' ->
  exists v, field_value row (snd kc) = Ok v /\ acc' = Dict.set acc (fst kc) v.
Proof.
  unfold map_field, field_value.
  destruct (source (snd kc)); simpl; [|discriminate].
  destruct (transform_funcs _ _) as [v|]; simpl; [|discriminate].
  intros [= <-]. eauto.
Qed.

Lemma map_fields_fold_shape row fsch : forall acc fs,
  NoDup (Dict.keys acc ++ Dict.keys fsch) ->
  fold_result (map_field row) fsch acc = Ok fs ->
  exists fs',
    fs = acc ++ fs'
    /\ Forall2 (fun kc kv => fst kv = fst kc
                             /\ field_value row (snd kc) = Ok (snd kv))
               fsch fs'.
Proof.
  induction fsch as [|kc fsch IH]; simpl; intros acc fs Hnd H.
  - injection H as <-. exists []. now rewrite app_nil_r.
  - destruct (map_field row acc kc) as [acc'|] eqn:E; simpl in H;
      [|discriminate].
    apply map_field_value in E. destruct E as (v & Hv & ->).
    rewrite set_absent in H.
    + assert (Hnd' : NoDup (Dict.keys (acc ++ [(fst kc, v)]) ++ Dict.keys fsch)).
      { unfold Dict.keys in *. rewrite map_app, <- app_assoc. exact Hnd. }
      destruct (IH _ _ Hnd' H) as (fs' & -> & Hall).
      exists ((fst kc, v) :: fs'). rewrite <- app_assoc.
      split; [reflexivity|]. constructor; auto.
    + apply get_none_not_in. apply NoDup_remove_2 in Hnd.
      intros Hin. apply Hnd. apply in_or_app. now left.
Qed.

(** X14.  The derived fields of a row are the declared fields, in the
    order of the schema, one for each: the value of a field is its transform
    applied to the normalised row's value of its source column, taken in
    lower case, or to the empty string when the row has no such column. *)
Theorem fields_follow_the_schema fsch row fs :
  NoDup (Dict.keys fsch) ->
  map_fields fsch row = Ok fs ->
  Forall2 (fun kc kv => fst kv = fst kc
                        /\ field_value row (snd kc) = Ok (snd kv))
          fsch fs.
Proof.
  intros Hnd H. unfold map_fields in H.
  destruct (map_fields_fold_shape row fsch [] Hnd H) as (fs' & -> & Hall).
  exact Hall.
Qed.
End FieldShape.

Lemma fields_follow_the_schema_witness :
  Forall2 (fun kc kv => fst kv = fst kc
                        /\ field_value [("category", "A"); ("label", "first")]
                                       (snd kc) = Ok (snd kv))
          (fields_schema schema_labels)
          [("category", VStr "A"); ("label", VStr "first")].
Proof.
  apply (@fields_follow_the_schema python (fields_schema schema_labels)
           [("category", "A"); ("label", "first")]).
  - simpl. constructor; [simpl; intros [H|[]]; discriminate|].
    constructor; [simpl; tauto|constructor].
  - reflexivity.
Defined.

(** ** Templates without a placeholder, values that do not parse *)

Section TemplateAndValues.
Context {B : Builtins}.
Local Open Scope list_scope.

Lemma format_from_brace_free kwargs tpl : forall out,
  brace_free tpl = true ->
  format_from kwargs InText out tpl = Ok (out ++ tpl)%string.
Proof.
  induction tpl as [|c tpl IH]; intros out H; simpl.
  - now rewrite append_nil_r.
  - simpl in H. apply andb_true_iff in H. destruct H as [H Ht].
    apply andb_true_iff in H. destruct H as [H1 H2].
    apply negb_true_iff in H1, H2. rewrite H1, H2. simpl.
    rewrite (IH _ Ht). now rewrite append_assoc.
Qed.

(** X15.  An id template with no brace names no field: it renders to
    itself on any fields, so every document of the run has the template as
    its [series_id], the same for all series. *)
Theorem brace_free_template_is_the_id rows sc array_output doc :
  brace_free (id_template sc) = true ->
  In doc (emitted (generate_json rows sc array_output)) ->
  series_id doc = id_template sc.
Proof.
  intros Hb H. apply generate_json_emitted in H.
  destruct H as (sd & k & data & _ & _ & Hm).
  apply make_series_json_ok in Hm. destruct Hm as (Hf & _ & _).
  unfold format in Hf. rewrite (format_from_brace_free _ _ _ Hb) in Hf.
  simpl in Hf. congruence.
Qed.

(** X16.  A row with an x value and a y value whose y the points
    transform does not parse stops the run, wherever it stands in the input:
    when the rows before it are accepted and its own fields and key derive,
    the run ends with [ValueError] and writes nothing. *)
Theorem unparsable_y_stops_the_run sc pre r post array_output fs k xcol ycol :
  Forall (fun r' => exists s, process_row sc [] r' = Ok s) pre ->
  row_fields sc r = Ok fs ->
  grouping_key (group_by sc) fs = Ok k ->
  points_x (points_schema sc) = Some xcol ->
  points_y (points_schema sc) = Some ycol ->
  nonempty (get_or (Dict.get (normalize_row (mappings sc) r) (str_lower xcol))
                   EmptyString) = true ->
  nonempty (get_or (Dict.get (normalize_row (mappings sc) r) (str_lower ycol))
                   EmptyString) = true ->
  transform_funcs (points_transform (points_schema sc))
                  (get_or (Dict.get (normalize_row (mappings sc) r)
                                    (str_lower ycol)) EmptyString)
  = Raise ValueError ->
  generate_json (pre ++ r :: post) sc array_output
  = {| stdout := EmptyString; emitted := []; raised := Some ValueError |}.
Proof.
  intros Hpre Hfs Hk Hx Hy Hxv Hyv Ht.
  assert (Hr : process_row sc [] r = Raise ValueError).
  { rewrite process_row_unfold, Hfs. simpl. rewrite Hk. simpl.
    unfold derive_point, point_column. rewrite Hx, Hy. simpl.
    rewrite Hxv, Hyv. simpl. now rewrite Ht. }
  assert (Hread : read_rows sc (pre ++ r :: post) = Raise ValueError).
  { unfold read_rows. apply fold_rows_raise. exists pre, r, post. auto. }
  unfold generate_json. now rewrite Hread.
Qed.
End TemplateAndValues.

Lemma brace_free_template_is_the_id_witness :
  In {| series_id := "series";
        doc_points := [("0", VStr "c"); ("1", VStr "b"); ("1", VStr "a")];
        doc_fields := [("category", VStr "A")] |}
     (emitted (generate_json rows_ties schema_plain true))
  /\ "series" = id_template schema_plain.
Proof.
  assert (Hin : In {| series_id := "series";
                      doc_points := [("0", VStr "c"); ("1", VStr "b");
                                     ("1", VStr "a")];
                      doc_fields := [("category", VStr "A")] |}
                   (emitted (generate_json rows_ties schema_plain true))).
  { vm_compute. left. reflexivity. }
  split; [exact Hin|].
  exact (@brace_free_template_is_the_id python rows_ties schema_plain true _
           eq_refl Hin).
Defined.

(** The second row of the input has the y value [n/a]. *)
Lemma unparsable_y_stops_the_run_witness :
  generate_json ([[("category", "A"); ("x", "1"); ("y", "10")]]
                 ++ [("category", "A"); ("x", "2"); ("y", "n/a")]
                 :: [[("category", "B"); ("x", "3"); ("y", "30")]])%list
                (schema_A None) true
  = {| stdout := EmptyString; emitted := []; raised := Some ValueError |}.
Proof.
  apply (@unparsable_y_stops_the_run python (schema_A None)
           [[("category", "A"); ("x", "1"); ("y", "10")]]
           [("category", "A"); ("x", "2"); ("y", "n/a")]
           [[("category", "B"); ("x", "3"); ("y", "30")]] true
           [("category", VStr "A")] [VStr "A"] "x" "y").
  - constructor; [|constructor]. eexists. vm_compute. reflexivity.
  - reflexivity.
  - reflexivity.
  - reflexivity.
  - reflexivity.
  - reflexivity.
  - reflexivity.
  - reflexivity.
Defined.
